(** * baps3d: the request vocabulary of the list Controller and the TCP server

    A shallow embedding of [list/requests.go] and [netsrv/server.go].

    - [requests] holds the data declared in [list/requests.go].
    - [controller] holds the part of the list Controller that the request
      vocabulary talks about and that lives outside these two files.
    - [netsrv] holds the TCP server: every function of [server.go] as a
      function on an explicit world state, and the goroutines of the server
      as an interleaving transition system over that state. *)

From stdpp Require Import gmap strings list.

Set Default Proof Using "Type".

(** ** list/requests.go *)

Module requests.

(** bifrost.Message is declared in another package; a message is kept as
    its list of words. *)
Definition Message : Type := list string.

(** Modelled from the spec: AutoMode is declared in a file of package list
    that is not part of the sources; the spec describes it as an enumerated
    value saying how the list advances automatically (off, advance on
    completion, shuffle). *)
Inductive AutoMode : Type :=
| AutoOff
| AutoAdvance
| AutoShuffle.

(** RequestOrigin: [Message] is a pointer that may be nil; [ReplyTx] is a
    send-only channel, named here by the number of the channel. *)
Record RequestOrigin : Type := mkRequestOrigin {
  OriginMessage : option Message;
  ReplyTx : nat
}.

Record DumpRequest : Type := mkDumpRequest { }.

Record SetSelectRequest : Type := mkSetSelectRequest {
  Index : Z;
  Hash : string
}.

Record NextRequest : Type := mkNextRequest { }.

Record SetAutoModeRequest : Type := mkSetAutoModeRequest {
  AutoMode_ : AutoMode
}.

(** [interface{}]: nil, or a value of any type together with that type.
    The declaration puts no bound on the type. *)
Inductive any : Type :=
| nil_interface
| of_type (T : Type) (v : T).

(** Request: the file declares the four request types above and leaves
    the type of [Body] open; what builds a Request and what the Controller
    does with its body is in other files of the package. *)
Record Request : Type := mkRequest {
  Origin : RequestOrigin;
  Body : any
}.

End requests.

(** ** The Controller's handling of SetSelect *)

Module controller.
Import requests.

(** Modelled from the spec: responses.go is not part of the sources. The
    spec names a selection-changed Response, which is broadcast, and a
    rejection Response, which is unicast. *)
Inductive Response : Type :=
| SelectionChanged (index : Z) (hash : string)
| Rejection (index : Z) (hash : string).

(** Modelled from the spec: an item of the list is known to the Controller
    through its hash, an opaque fingerprint that can be compared. *)
Record Item : Type := mkItem {
  item_hash : string;
  item_payload : string
}.

(** Modelled from the spec: controller.go is not part of the sources. The
    Controller owns the list, the selection, the auto mode and the Rx
    channels of the attached Client handles. *)
Record Controller : Type := mkController {
  items : list Item;
  selection : Z;
  autoMode : AutoMode;
  attached : list nat
}.

(** A send of a Response on a channel. *)
Definition Send : Type := (nat * Response)%type.

Definition item_at (st : Controller) (i : Z) : option Item :=
  if bool_decide (0 ≤ i)%Z then items st !! Z.to_nat i else None.

Definition broadcast (r : Response) (st : Controller) : list Send :=
  (λ rx, (rx, r)) <$> attached st.

Definition unicast (o : RequestOrigin) (r : Response) : list Send :=
  [(ReplyTx o, r)].

(** Modelled from the spec: the Controller's handler of SetSelect, which is
    in controller.go. It validates that Index is in bounds and that Hash is
    the hash of the item at Index; on success it changes the selection and
    broadcasts a selection-changed Response; on failure it sends a rejection
    to the requester and leaves the state as it is. The result is the new
    state, the sends in the order they are made, and whether the request
    succeeded. *)
Definition handleSetSelect (o : RequestOrigin) (b : SetSelectRequest)
    (st : Controller) : Controller * list Send * bool :=
  match item_at st (Index b) with
  | Some it =>
      if bool_decide (item_hash it = Hash b) then
        let st' := {| items := items st; selection := Index b;
                      autoMode := autoMode st; attached := attached st |} in
        (st', broadcast (SelectionChanged (Index b) (Hash b)) st', true)
      else (st, unicast o (Rejection (Index b) (Hash b)), false)
  | None => (st, unicast o (Rejection (Index b) (Hash b)), false)
  end.

(** The hash guard as the claim words it: there is an item at Index and its
    hash is Hash. *)
Definition hash_matches (st : Controller) (b : SetSelectRequest) : Prop :=
  ∃ it, item_at st (Index b) = Some it ∧ item_hash it = Hash b.

End controller.

(** ** netsrv/server.go *)

Module netsrv.
Import requests.

Definition error : Type := string.

(** net.Conn: a socket, known by its descriptor and the string that
    [RemoteAddr().String()] gives. *)
Record Conn : Type := mkConn {
  fd : nat;
  RemoteAddr : string
}.

#[global] Instance Conn_eq_dec : EqDecision Conn.
Proof. solve_decision. Defined.

#[global] Instance Conn_countable : Countable Conn.
Proof.
  apply (inj_countable' (λ c, (fd c, RemoteAddr c)) (λ p, mkConn p.1 p.2)).
  by intros [].
Defined.

(** The struct [client]. Its logger is the server's logger and [buf] is
    never written, so the three remaining fields tell clients apart:
    [conClient] and [conBifrost] are the handles that Copy and NewBifrost
    return. *)
Record client : Type := mkClient {
  conn : Conn;
  conClient : nat;
  conBifrost : nat
}.

#[global] Instance client_eq_dec : EqDecision client.
Proof. solve_decision. Defined.

#[global] Instance client_countable : Countable client.
Proof.
  apply (inj_countable' (λ c, (conn c, conClient c, conBifrost c))
                        (λ p, mkClient p.1.1 p.1.2 p.2)).
  by intros [].
Defined.

(** The fields of [Server] that change: what the logger [l] has printed,
    the map [clients] (a set: its values are [struct{}]), whether the
    channels [done], [accErr] and [accConn] are closed, and the counter of
    the WaitGroup [wg]. *)
Record Server : Type := mkServer {
  l : list string;
  host : string;
  clients : gset client;
  done : bool;
  accErr_closed : bool;
  accConn_closed : bool;
  wg : nat
}.

(** Where the goroutine that runs [Run] stands. *)
Inductive MainPc : Type :=
| AtListen
| InMainLoop
| AtCloseDone
| AtHangUpAll
| AtCloseListener
| AtShutdownController
| AtWait
| Returned.

(** Where the goroutine that runs [acceptClients] stands: not started, in
    [ln.Accept()], in the select that sends an error, in the select that
    sends a connection, or finished. *)
Inductive AccPc : Type :=
| AccNotStarted
| InAccept
| SendingErr (err : error)
| SendingConn (c : Conn)
| AccExited.

(** Where the three goroutines of a connection stand. The first one runs
    [RunTx] and then the select that sends the hang-up. *)
Inductive TxPc : Type :=
| InRunTx
| SendingHangUp
| TxExited.

Inductive RxPc : Type :=
| InRunRx
| RxExited.

Inductive BfPc : Type :=
| InBifrostRun
| BfExited.

(** The three goroutines [newClient] starts for a client, with what they
    have done so far: the messages [RunTx] has handed to [conBifrost.Send]
    and the byte strings [RunRx] has written to the socket. *)
Record ConnProc : Type := mkConnProc {
  cli : client;
  tx : TxPc;
  rx : RxPc;
  bf : BfPc;
  sent : list Message;
  written : list string
}.

Inductive Listener : Type :=
| NotBound
| Listening
| LnClosed.

(** The steps of [Run] in the order the main goroutine has taken them. *)
Inductive Mark : Type :=
| ListenFailed
| ListenOk
| MainLoopReturned
| DoneClosed
| AllHungUp
| ListenerClosed
| ControllerShutdown
| Waited.

#[global] Instance Mark_eq_dec : EqDecision Mark.
Proof. solve_decision. Defined.

(** The server, the things outside it that it acts on, and its
    goroutines. [closed] lists the sockets on which Close was called, the
    last call first; [ctl_shutdowns] counts the calls of
    [rootClient.Shutdown]; [ctl_done] says whether [rootClient.Done] is
    closed. *)
Record World : Type := mkWorld {
  srv : Server;
  ln : Listener;
  closed : list Conn;
  ctl_shutdowns : nat;
  ctl_done : bool;
  main : MainPc;
  acceptor : AccPc;
  procs : list ConnProc;
  marks : list Mark
}.

(** *** Field updates *)

Definition upd_srv (f : Server → Server) (w : World) : World :=
  mkWorld (f (srv w)) (ln w) (closed w) (ctl_shutdowns w) (ctl_done w)
          (main w) (acceptor w) (procs w) (marks w).

Definition set_ln (x : Listener) (w : World) : World :=
  mkWorld (srv w) x (closed w) (ctl_shutdowns w) (ctl_done w)
          (main w) (acceptor w) (procs w) (marks w).

Definition set_closed (x : list Conn) (w : World) : World :=
  mkWorld (srv w) (ln w) x (ctl_shutdowns w) (ctl_done w)
          (main w) (acceptor w) (procs w) (marks w).

Definition set_ctl (n : nat) (d : bool) (w : World) : World :=
  mkWorld (srv w) (ln w) (closed w) n d
          (main w) (acceptor w) (procs w) (marks w).

Definition set_main (x : MainPc) (w : World) : World :=
  mkWorld (srv w) (ln w) (closed w) (ctl_shutdowns w) (ctl_done w)
          x (acceptor w) (procs w) (marks w).

Definition set_acceptor (x : AccPc) (w : World) : World :=
  mkWorld (srv w) (ln w) (closed w) (ctl_shutdowns w) (ctl_done w)
          (main w) x (procs w) (marks w).

Definition set_procs (x : list ConnProc) (w : World) : World :=
  mkWorld (srv w) (ln w) (closed w) (ctl_shutdowns w) (ctl_done w)
          (main w) (acceptor w) x (marks w).

Definition mark (m : Mark) (w : World) : World :=
  mkWorld (srv w) (ln w) (closed w) (ctl_shutdowns w) (ctl_done w)
          (main w) (acceptor w) (procs w) (marks w ++ [m]).

Definition set_l (x : list string) (s : Server) : Server :=
  mkServer x (host s) (clients s) (done s) (accErr_closed s)
           (accConn_closed s) (wg s).

Definition set_clients (x : gset client) (s : Server) : Server :=
  mkServer (l s) (host s) x (done s) (accErr_closed s)
           (accConn_closed s) (wg s).

Definition set_wg (n : nat) (s : Server) : Server :=
  mkServer (l s) (host s) (clients s) (done s) (accErr_closed s)
           (accConn_closed s) n.

(** [close(s.done)] *)
Definition close_done (s : Server) : Server :=
  mkServer (l s) (host s) (clients s) true (accErr_closed s)
           (accConn_closed s) (wg s).

(** [close(s.accErr); close(s.accConn)] *)
Definition close_acc_chans (s : Server) : Server :=
  mkServer (l s) (host s) (clients s) (done s) true true (wg s).

(** [s.l.Println(...)] and [s.l.Printf(...)], given the line they print. *)
Definition Println (line : string) (w : World) : World :=
  upd_srv (λ s, set_l (l s ++ [line]) s) w.

(** [s.wg.Add(n)] and [s.wg.Done()] *)
Definition wg_Add (n : nat) (w : World) : World :=
  upd_srv (λ s, set_wg (wg s + n) s) w.

Definition wg_Done (w : World) : World :=
  upd_srv (λ s, set_wg (wg s - 1) s) w.

(** [conn.Close()]: the call is recorded; what it returns is given by the
    caller of the model. *)
Definition conn_Close (c : Conn) (w : World) : World :=
  set_closed (c :: closed w) w.

(** *** The functions of server.go *)

(** [func (c *client) Close() error] *)
Definition Close (c : client) (w : World) : World :=
  conn_Close (conn c) w.

(** [func New(l, host, rc, rb) *Server]: all channels open, no client. *)
Definition New (host0 : string) : Server :=
  {| l := []; host := host0; clients := ∅; done := false;
     accErr_closed := false; accConn_closed := false; wg := 0 |}.

(** The world in which [Run] is called on [New host]. *)
Definition init (host0 : string) : World :=
  {| srv := New host0; ln := NotBound; closed := []; ctl_shutdowns := 0;
     ctl_done := false; main := AtListen; acceptor := AccNotStarted;
     procs := []; marks := [] |}.

(** [func (s *Server) shutdownController()] *)
Definition shutdownController (w : World) : World :=
  let w := Println "shutting down" w in
  set_ctl (S (ctl_shutdowns w)) true w.

(** [func (c *client) outputError(e error)]; the client's logger is the
    server's. *)
Definition outputError (e : error) (w : World) : World :=
  Println ("connection error: " +:+ e) w.

(** [func (s *Server) newClient(c net.Conn) error]. [copy] is what
    [s.rootClient.Copy()] returns: an error, or the handle of the new
    Client. The three [go] statements add the client's goroutines to
    [procs]. *)
Definition newClient (c : Conn) (copy : error + nat) (w : World)
    : option error * World :=
  let w := Println ("new connection: " +:+ RemoteAddr c) w in
  match copy with
  | inl err => (Some err, conn_Close c w)
  | inr h =>
      let cli := {| conn := c; conClient := h; conBifrost := h |} in
      let w := upd_srv (λ s, set_clients ({[cli]} ∪ clients s) s) w in
      let w := wg_Add 3 w in
      let w := set_procs (procs w ++ [mkConnProc cli InRunTx InRunRx
                                        InBifrostRun [] []]) w in
      (None, w)
  end.

(** [func (s *Server) hangUpClient(c *client)]. [cerr] is what [c.Close()]
    returns. *)
Definition hangUpClient (c : client) (cerr : option error) (w : World)
    : World :=
  let cname := RemoteAddr (conn c) in
  let w := Println ("hanging up: " +:+ cname) w in
  let w := Close c w in
  let w := match cerr with
           | Some err =>
               Println ("couldn't gracefully close " +:+ cname +:+ ": "
                        +:+ err) w
           | None => w
           end in
  upd_srv (λ s, set_clients (clients s ∖ {[c]}) s) w.

(** [func (s *Server) hangUpAllClients()]: the range over the map visits
    every client once, in an order the language does not fix. [cerr] gives
    what Close returns on each socket. *)
Definition hangUpAllClients (cerr : Conn → option error) (w : World)
    : World :=
  set_fold (λ c w, hangUpClient c (cerr (conn c)) w) w (clients (srv w)).

(** Whether a loop goes round again or is left. *)
Inductive LoopCtl : Type :=
| Continue
| Break.

(** One round of the loop of [RunRx]: the message [m] received from
    [c.conBifrost.Rx], with what [m.Pack()] and [c.conn.Write] return. *)
Inductive RxIn : Type :=
| PackFails (m : Message) (err : error)
| Packed (m : Message) (mbytes : string) (werr : option error).

Definition RunRx_body (i : RxIn) (p : ConnProc) (w : World)
    : LoopCtl * ConnProc * World :=
  match i with
  | PackFails m err => (Continue, p, outputError err w)
  | Packed m mbytes (Some err) => (Break, p, outputError err w)
  | Packed m mbytes None =>
      (Continue,
       mkConnProc (cli p) (tx p) (rx p) (bf p) (sent p)
                  (written p ++ [mbytes]),
       w)
  end.

(** [func (c *client) RunRx()] on a channel that delivers [ins] and is then
    closed: the range ends with the channel or at the first break. *)
Fixpoint RunRx (ins : list RxIn) (p : ConnProc) (w : World)
    : ConnProc * World :=
  match ins with
  | [] => (p, w)
  | i :: ins' =>
      match RunRx_body i p w with
      | (Continue, p', w') => RunRx ins' p' w'
      | (Break, p', w') => (p', w')
      end
  end.

(** One round of the loop of [RunTx], by what the calls of the round
    return: [r.ReadLine()] fails; or it gives [line] and
    [bifrost.LineToMessage(line)] fails; or that gives [msg] and
    [c.conBifrost.Send(msg)] returns [ok]. *)
Inductive TxIn : Type :=
| ReadFails (terr : error)
| ParseFails (line : list string) (merr : error)
| Parsed (line : list string) (msg : Message) (ok : bool).

Definition RunTx_body (i : TxIn) (p : ConnProc) (w : World)
    : LoopCtl * ConnProc * World :=
  match i with
  | ReadFails terr => (Break, p, outputError terr w)
  | ParseFails line merr => (Break, p, outputError merr w)
  | Parsed line msg false =>
      (Break, p, Println "client died while sending message" w)
  | Parsed line msg true =>
      (Continue,
       mkConnProc (cli p) (tx p) (rx p) (bf p) (sent p ++ [msg])
                  (written p),
       w)
  end.

(** [func (c *client) RunTx()] on the rounds [ins]. The loop has no exit
    but its breaks: the result says whether the function has returned
    ([Break]) or waits in [ReadLine] for more ([Continue]), and how many
    lines it has asked for. *)
Fixpoint RunTx (ins : list TxIn) (p : ConnProc) (w : World)
    : LoopCtl * nat * ConnProc * World :=
  match ins with
  | [] => (Continue, 0, p, w)
  | i :: ins' =>
      match RunTx_body i p w with
      | (Continue, p', w') =>
          let '(ctl, n, p'', w'') := RunTx ins' p' w' in (ctl, S n, p'', w'')
      | (Break, p', w') => (Break, 1, p', w')
      end
  end.

(** What the select of [mainLoop] receives: [copy] and [cerr] are what
    Copy and Close return inside the case. *)
Inductive MainEvent : Type :=
| RecvAccErr (err : error)
| RecvAccConn (c : Conn) (copy : error + nat)
| RecvHangUp (c : client) (cerr : option error)
| RecvRootRx (r : controller.Response)
| RecvRootDone.

(** One round of [func (s *Server) mainLoop()]; [Break] is its return. *)
Definition mainLoop_body (ev : MainEvent) (w : World) : LoopCtl * World :=
  match ev with
  | RecvAccErr err =>
      (Break, Println ("error accepting connections: " +:+ err) w)
  | RecvAccConn c copy =>
      let cname := RemoteAddr c in
      match newClient c copy w with
      | (Some err, w') =>
          (Continue,
           Println ("error registering connection " +:+ cname +:+ ": "
                    +:+ err) w')
      | (None, w') => (Continue, w')
      end
  | RecvHangUp c cerr => (Continue, hangUpClient c cerr w)
  | RecvRootRx _ => (Continue, w)
  | RecvRootDone => (Break, Println "received controller shutdown" w)
  end.

(** [mainLoop] on the events [evs]: [Break] when it has returned,
    [Continue] when it waits in its select for more. *)
Fixpoint mainLoop (evs : list MainEvent) (w : World) : LoopCtl * World :=
  match evs with
  | [] => (Continue, w)
  | ev :: evs' =>
      match mainLoop_body ev w with
      | (Continue, w') => mainLoop evs' w'
      | (Break, w') => (Break, w')
      end
  end.

(** *** The goroutines of the server *)

Definition with_tx (x : TxPc) (p : ConnProc) : ConnProc :=
  mkConnProc (cli p) x (rx p) (bf p) (sent p) (written p).

Definition with_rx (x : RxPc) (p : ConnProc) : ConnProc :=
  mkConnProc (cli p) (tx p) x (bf p) (sent p) (written p).

Definition with_bf (x : BfPc) (p : ConnProc) : ConnProc :=
  mkConnProc (cli p) (tx p) (rx p) x (sent p) (written p).

Definition set_proc (k : nat) (p : ConnProc) (w : World) : World :=
  set_procs (<[k := p]> (procs w)) w.

(** What the outside gives to a step of [Run]: the result of [net.Listen];
    the case the select of [mainLoop] takes; nothing; what Close returns on
    the sockets [hangUpAllClients] closes; the result of [ln.Close()]. *)
Inductive RunIn : Type :=
| ListenReturns (r : option error)
| Selects (ev : MainEvent)
| Proceeds
| ClosesSockets (cerr : Conn → option error)
| ListenerCloses (r : option error).

(** [func (s *Server) Run()], one step from where the main goroutine
    stands. The two deferred calls run on every return, the one deferred
    last first: [shutdownController], then [wg.Wait], which returns when
    the counter is zero. The [go] statement starts [acceptClients]. *)
Definition Run (i : RunIn) (w : World) : option World :=
  match main w, i with
  | AtListen, ListenReturns (Some err) =>
      let w := Println ("couldn't open server: " +:+ err) w in
      Some (mark ListenFailed (set_main AtShutdownController w))
  | AtListen, ListenReturns None =>
      let w := set_ln Listening w in
      let w := Println ("now listening on " +:+ host (srv w)) w in
      let w := wg_Add 1 w in
      let w := set_acceptor InAccept w in
      Some (mark ListenOk (set_main InMainLoop w))
  | InMainLoop, Selects ev =>
      match mainLoop_body ev w with
      | (Continue, w') => Some w'
      | (Break, w') => Some (mark MainLoopReturned (set_main AtCloseDone w'))
      end
  | AtCloseDone, Proceeds =>
      Some (mark DoneClosed (set_main AtHangUpAll (upd_srv close_done w)))
  | AtHangUpAll, ClosesSockets cerr =>
      Some (mark AllHungUp (set_main AtCloseListener
                              (hangUpAllClients cerr w)))
  | AtCloseListener, ListenerCloses r =>
      let w := set_ln LnClosed w in
      let w := match r with
               | Some err => Println ("error closing listener: " +:+ err) w
               | None => w
               end in
      let w := Println "closed listener" w in
      Some (mark ListenerClosed (set_main AtShutdownController w))
  | AtShutdownController, Proceeds =>
      Some (mark ControllerShutdown (set_main AtWait (shutdownController w)))
  | AtWait, Proceeds =>
      if bool_decide (wg (srv w) = 0)
      then Some (mark Waited (set_main Returned w))
      else None
  | _, _ => None
  end.

(** What happens to the acceptor: Accept returns; its send is received by
    the main loop; or its select takes the case of [done]. *)
Inductive AccIn : Type :=
| Accepted (r : error + Conn)
| AccSent
| AccSawDone.

(** The end of [acceptClients] and of the goroutine around it. *)
Definition acceptor_returns (w : World) : World :=
  wg_Done (set_acceptor AccExited (upd_srv close_acc_chans w)).

(** [func (s *Server) acceptClients(ln net.Listener)], one step. The case
    of [done] can be taken only when [done] is closed. *)
Definition acceptClients (i : AccIn) (w : World) : option World :=
  match acceptor w, i with
  | InAccept, Accepted (inl err) => Some (set_acceptor (SendingErr err) w)
  | InAccept, Accepted (inr c) => Some (set_acceptor (SendingConn c) w)
  | SendingErr err, AccSent => Some (acceptor_returns w)
  | SendingErr err, AccSawDone =>
      if done (srv w) then Some (acceptor_returns w) else None
  | SendingConn c, AccSent => Some (set_acceptor InAccept w)
  | SendingConn c, AccSawDone =>
      if done (srv w)
      then Some (set_acceptor InAccept (conn_Close c w))
      else None
  | _, _ => None
  end.

(** What happens to the first goroutine of a client: a round of [RunTx];
    its hang-up is received by the main loop; or its select takes the case
    of [done]. *)
Inductive TxGoIn : Type :=
| TxRound (i : TxIn)
| TxSent
| TxSawDone.

(** The first goroutine of [newClient], for the client at index [k]. *)
Definition tx_goroutine (k : nat) (i : TxGoIn) (w : World)
    : option World :=
  p ← procs w !! k;
  match tx p, i with
  | InRunTx, TxRound r =>
      match RunTx_body r p w with
      | (Continue, p', w') => Some (set_proc k p' w')
      | (Break, p', w') => Some (set_proc k (with_tx SendingHangUp p') w')
      end
  | SendingHangUp, TxSent =>
      Some (wg_Done (set_proc k (with_tx TxExited p) w))
  | SendingHangUp, TxSawDone =>
      if done (srv w)
      then Some (wg_Done (set_proc k (with_tx TxExited p) w))
      else None
  | _, _ => None
  end.

(** What happens to the second goroutine of a client: a round of [RunRx],
    or [conBifrost.Rx] is found closed. *)
Inductive RxGoIn : Type :=
| RxRound (i : RxIn)
| RxClosed.

(** The second goroutine of [newClient]. *)
Definition rx_goroutine (k : nat) (i : RxGoIn) (w : World)
    : option World :=
  p ← procs w !! k;
  match rx p, i with
  | InRunRx, RxRound r =>
      match RunRx_body r p w with
      | (Continue, p', w') => Some (set_proc k p' w')
      | (Break, p', w') =>
          Some (wg_Done (set_proc k (with_rx RxExited p') w'))
      end
  | InRunRx, RxClosed => Some (wg_Done (set_proc k (with_rx RxExited p) w))
  | _, _ => None
  end.

(** The third goroutine of [newClient]: [conBifrost.Run()] returns. *)
Definition bf_goroutine (k : nat) (w : World) : option World :=
  p ← procs w !! k;
  match bf p with
  | InBifrostRun => Some (wg_Done (set_proc k (with_bf BfExited p) w))
  | BfExited => None
  end.

(** The steps of the whole server. A send on an unbuffered channel and its
    receive are one step of the two goroutines together. The main loop has
    no step that receives from a closed [accErr] or [accConn]: the
    acceptor closes them only when the main loop has returned (see
    [closed_channels_after_mainLoop]). *)
Inductive Action : Type :=
| MainStep (i : RunIn)
| MainRecvAcc (copy : error + nat)
| MainRecvHangUp (k : nat) (cerr : option error)
| AccStep (i : AccIn)
| TxStep (k : nat) (i : TxGoIn)
| RxStep (k : nat) (i : RxGoIn)
| BfStep (k : nat)
| ControllerShutsDown.

Definition step (a : Action) (w : World) : option World :=
  match a with
  | MainStep (Selects (RecvRootRx r)) => Run (Selects (RecvRootRx r)) w
  | MainStep (Selects RecvRootDone) =>
      if ctl_done w then Run (Selects RecvRootDone) w else None
  | MainStep (Selects _) => None
  | MainStep i => Run i w
  | MainRecvAcc copy =>
      match acceptor w with
      | SendingErr err =>
          w' ← Run (Selects (RecvAccErr err)) w; acceptClients AccSent w'
      | SendingConn c =>
          w' ← Run (Selects (RecvAccConn c copy)) w; acceptClients AccSent w'
      | _ => None
      end
  | MainRecvHangUp k cerr =>
      p ← procs w !! k;
      w' ← Run (Selects (RecvHangUp (cli p) cerr)) w;
      tx_goroutine k TxSent w'
  | AccStep AccSent => None
  | AccStep i => acceptClients i w
  | TxStep k TxSent => None
  | TxStep k i => tx_goroutine k i w
  | RxStep k i => rx_goroutine k i w
  | BfStep k => bf_goroutine k w
  | ControllerShutsDown => Some (set_ctl (ctl_shutdowns w) true w)
  end.

Fixpoint run (acts : list Action) (w : World) : option World :=
  match acts with
  | [] => Some w
  | a :: acts' => w' ← step a w; run acts' w'
  end.

(** The worlds the server can be in after [Run] is called on [New h]. *)
Definition reachable (w : World) : Prop :=
  ∃ h acts, run acts (init h) = Some w.

(** The goroutines of a client that have not finished. *)
Definition live_of (p : ConnProc) : nat :=
  (if tx p is TxExited then 0 else 1) + (if rx p is RxExited then 0 else 1)
  + (if bf p is BfExited then 0 else 1).

Definition live_procs (ps : list ConnProc) : nat :=
  sum_list_with live_of ps.

(** The goroutines started by the server that have not finished. *)
Definition live (w : World) : nat :=
  match acceptor w with
  | AccNotStarted | AccExited => 0
  | _ => 1
  end + live_procs (procs w).

(** The main goroutine has left [mainLoop]. *)
Definition past_mainLoop (pc : MainPc) : bool :=
  match pc with
  | AtListen | InMainLoop => false
  | _ => true
  end.

(** The marks the main goroutine has left when it stands at [pc];
    [bound] says whether Listen succeeded. *)
Definition marks_at (bound : bool) (pc : MainPc) : list Mark :=
  match pc with
  | AtListen => []
  | InMainLoop => [ListenOk]
  | AtCloseDone => [ListenOk; MainLoopReturned]
  | AtHangUpAll => [ListenOk; MainLoopReturned; DoneClosed]
  | AtCloseListener => [ListenOk; MainLoopReturned; DoneClosed; AllHungUp]
  | AtShutdownController =>
      if bound
      then [ListenOk; MainLoopReturned; DoneClosed; AllHungUp;
            ListenerClosed]
      else [ListenFailed]
  | AtWait =>
      if bound
      then [ListenOk; MainLoopReturned; DoneClosed; AllHungUp;
            ListenerClosed; ControllerShutdown]
      else [ListenFailed; ControllerShutdown]
  | Returned =>
      if bound
      then [ListenOk; MainLoopReturned; DoneClosed; AllHungUp;
            ListenerClosed; ControllerShutdown; Waited]
      else [ListenFailed; ControllerShutdown; Waited]
  end.

Definition bound (w : World) : bool :=
  match ln w with
  | NotBound => false
  | _ => true
  end.

(** [m1] comes before [m2] in a list of marks without repetition. *)
Definition before (m1 m2 : Mark) (ms : list Mark) : Prop :=
  ∃ i j, ms !! i = Some m1 ∧ ms !! j = Some m2 ∧ i < j.

(** *** What holds in every world the server can be in *)

(** Whether [done] is closed when the main goroutine stands at [pc]. *)
Definition done_at (b : bool) (pc : MainPc) : bool :=
  match pc with
  | AtListen | InMainLoop | AtCloseDone => false
  | AtHangUpAll | AtCloseListener => true
  | AtShutdownController | AtWait | Returned => b
  end.

(** The state of the listener when the main goroutine stands at [pc]. *)
Definition ln_at (b : bool) (pc : MainPc) : Listener :=
  match pc with
  | AtListen => NotBound
  | InMainLoop | AtCloseDone | AtHangUpAll | AtCloseListener => Listening
  | AtShutdownController | AtWait | Returned =>
      if b then LnClosed else NotBound
  end.

(** The places of [Run] at which the map of clients is empty. *)
Definition clients_gone (pc : MainPc) : bool :=
  match pc with
  | AtListen | AtCloseListener | AtShutdownController | AtWait
  | Returned => true
  | InMainLoop | AtCloseDone | AtHangUpAll => false
  end.

(** The calls of [rootClient.Shutdown] made when [Run] stands at [pc]. *)
Definition shutdowns_at (pc : MainPc) : nat :=
  match pc with
  | AtWait | Returned => 1
  | _ => 0
  end.

(** Every client that was given goroutines is in the map [X] of live
    clients, or its socket is among the closed ones [cl]. *)
Definition registered (ps : list ConnProc) (X : gset client)
    (cl : list Conn) : Prop :=
  ∀ p, p ∈ ps → cli p ∈ X ∨ conn (cli p) ∈ cl.

Record invariant (w : World) : Prop := mkInvariant {
  inv_marks : marks w = marks_at (bound w) (main w);
  inv_ln : ln w = ln_at (bound w) (main w);
  inv_done : done (srv w) = done_at (bound w) (main w);
  inv_wg : wg (srv w) = live w;
  inv_clients : clients_gone (main w) = true → clients (srv w) = ∅;
  inv_ctl : ctl_shutdowns w = shutdowns_at (main w);
  inv_ctl_done : 0 < ctl_shutdowns w → ctl_done w = true;
  inv_acc_started : acceptor w = AccNotStarted ↔ bound w = false;
  inv_acc_exited : acceptor w = AccExited → past_mainLoop (main w) = true;
  inv_acc_chans :
    accConn_closed (srv w) = accErr_closed (srv w) ∧
    (accErr_closed (srv w) = true ↔ acceptor w = AccExited);
  inv_procs : registered (procs w) (clients (srv w)) (closed w);
  inv_returned : main w = Returned → wg (srv w) = 0
}.

(** Two worlds that agree on everything but the log, the map of clients
    and the list of closed sockets. *)
Definition same_but_clients (w w' : World) : Prop :=
  ln w' = ln w ∧ ctl_shutdowns w' = ctl_shutdowns w ∧
  ctl_done w' = ctl_done w ∧ main w' = main w ∧
  acceptor w' = acceptor w ∧ procs w' = procs w ∧ marks w' = marks w ∧
  host (srv w') = host (srv w) ∧ done (srv w') = done (srv w) ∧
  accErr_closed (srv w') = accErr_closed (srv w) ∧
  accConn_closed (srv w') = accConn_closed (srv w) ∧
  wg (srv w') = wg (srv w).

End netsrv.

(** ** Concrete worlds *)

Module examples.
Import requests netsrv.

Definition host0 : string := "localhost:1350".

Definition conn1 : Conn := mkConn 7 "192.0.2.1:40000".

Definition conn2 : Conn := mkConn 8 "192.0.2.2:40001".

(** The client that [newClient] makes of [conn1] when Copy returns the
    handle 1. *)
Definition cli1 : client := mkClient conn1 1 1.

Definition proc1 : ConnProc :=
  mkConnProc cli1 InRunTx InRunRx InBifrostRun [] [].

(** The world after the steps [acts] of a server made by [New host0]; the
    initial world if the steps cannot be taken. *)
Definition after (acts : list Action) : World :=
  default (init host0) (run acts (init host0)).

(** Listen succeeds. *)
Definition listen : list Action := [MainStep (ListenReturns None)].

(** Listen succeeds, [conn1] is accepted and registered. *)
Definition serve1 : list Action :=
  listen ++ [AccStep (Accepted (inr conn1)); MainRecvAcc (inr 1)].

(** The Controller shuts down and the server follows, up to the close of
    the listener. *)
Definition shut_down : list Action :=
  [ControllerShutsDown; MainStep (Selects RecvRootDone); MainStep Proceeds;
   MainStep (ClosesSockets (λ _, None)); MainStep (ListenerCloses None)].


(** Listen fails and [Run] returns. *)
Definition listen_fails : list Action :=
  [MainStep (ListenReturns (Some "address already in use"));
   MainStep Proceeds; MainStep Proceeds].


(** After [shut_down] the acceptor gets one more connection. *)
Definition late_accept : list Action :=
  listen ++ shut_down ++ [AccStep (Accepted (inr conn2))].

(** The acceptor has [conn1] to hand over to the main loop. *)
Definition accepted1 : list Action :=
  listen ++ [AccStep (Accepted (inr conn1))].

Definition bad_line : TxIn := ParseFails ["?"] "insufficient words".

Definition good_line : TxIn := Parsed ["a"; "dump"] ["a"; "dump"] true.

Definition failed_write : RxIn :=
  Packed ["!"; "OHAI"] "! OHAI" (Some "broken pipe").

(** A Controller with three items and two attached handles, on the
    channels 10 and 11, and the two requests of the scenario of the spec:
    one with the hash of the item it selects, one with a stale hash. *)
Definition three_items : controller.Controller :=
  controller.mkController
    [controller.mkItem "H0" "zero"; controller.mkItem "H1" "one";
     controller.mkItem "H2" "two"] 0 AutoOff [10; 11].

Definition origin_A : RequestOrigin := mkRequestOrigin None 10.

Definition origin_B : RequestOrigin := mkRequestOrigin None 11.

Definition select_fresh : SetSelectRequest := mkSetSelectRequest 1 "H1".

Definition select_stale : SetSelectRequest := mkSetSelectRequest 2 "H1".

End examples.

(** ** Rounds of the loops, accounting and a schedule for shutdown *)

Module rounds.
Import requests netsrv.

(** A round of [RunTx] that goes round again: the line parses and
    [Send] takes the message. *)
Definition tx_forwards (i : TxIn) : option Message :=
  match i with
  | Parsed _ msg true => Some msg
  | _ => None
  end.

(** The line a round of [RunTx] logs when it leaves the loop. *)
Definition tx_breaks (i : TxIn) : option string :=
  match i with
  | ReadFails terr => Some ("connection error: " +:+ terr)
  | ParseFails _ merr => Some ("connection error: " +:+ merr)
  | Parsed _ _ false => Some "client died while sending message"
  | Parsed _ _ true => None
  end.

(** What a round of [RunRx] writes to the socket. *)
Definition rx_writes (i : RxIn) : option string :=
  match i with
  | Packed _ mbytes None => Some mbytes
  | _ => None
  end.

(** What a round of [RunRx] logs. *)
Definition rx_logs (i : RxIn) : option string :=
  match i with
  | PackFails _ err => Some ("connection error: " +:+ err)
  | Packed _ _ (Some err) => Some ("connection error: " +:+ err)
  | Packed _ _ None => None
  end.

(** The round is one whose write to the socket fails. *)
Definition write_fails (i : RxIn) : bool :=
  match i with
  | Packed _ _ (Some _) => true
  | _ => false
  end.

(** The two events on which [mainLoop] returns. *)
Definition returns_on (ev : MainEvent) : bool :=
  match ev with
  | RecvAccErr _ | RecvRootDone => true
  | _ => false
  end.

(** The world [w] with [lines] added to what the logger has printed. *)
Definition logged (lines : list string) (w : World) : World :=
  upd_srv (λ s, set_l (l s ++ lines) s) w.

(** The goroutines of a client with more messages sent and more byte
    strings written. *)
Definition with_sent (msgs : list Message) (p : ConnProc) : ConnProc :=
  mkConnProc (cli p) (tx p) (rx p) (bf p) (sent p ++ msgs) (written p).

Definition with_written (bs : list string) (p : ConnProc) : ConnProc :=
  mkConnProc (cli p) (tx p) (rx p) (bf p) (sent p) (written p ++ bs).

End rounds.

Module accounting.
Import requests netsrv.

(** Every client of the map [X] has its goroutines among [ps]. *)
Definition served (ps : list ConnProc) (X : gset client) : Prop :=
  ∀ c, c ∈ X → ∃ p, p ∈ ps ∧ cli p = c.

End accounting.

Module schedule.
Import requests netsrv.

(** What the outside does to end the goroutines of the client at index
    [k]: the read on the closed socket fails, [conBifrost.Rx] is closed,
    [conBifrost.Run] returns. The goroutine of [RunTx] then finds [done]
    closed. *)
Definition finish_tx (k : nat) (pc : TxPc) : list Action :=
  match pc with
  | InRunTx =>
      [TxStep k (TxRound (ReadFails "use of closed network connection"));
       TxStep k TxSawDone]
  | SendingHangUp => [TxStep k TxSawDone]
  | TxExited => []
  end.

Definition finish_rx (k : nat) (pc : RxPc) : list Action :=
  match pc with
  | InRunRx => [RxStep k RxClosed]
  | RxExited => []
  end.

Definition finish_bf (k : nat) (pc : BfPc) : list Action :=
  match pc with
  | InBifrostRun => [BfStep k]
  | BfExited => []
  end.

Definition finish_proc (k : nat) (p : ConnProc) : list Action :=
  finish_tx k (tx p) ++ finish_rx k (rx p) ++ finish_bf k (bf p).

Fixpoint finish_procs (k : nat) (ps : list ConnProc) : list Action :=
  match ps with
  | [] => []
  | p :: ps' => finish_proc k p ++ finish_procs (S k) ps'
  end.

(** Accept fails on the closed listener and the acceptor finds [done]
    closed. *)
Definition finish_acceptor (pc : AccPc) : list Action :=
  match pc with
  | InAccept =>
      [AccStep (Accepted (inl "use of closed network connection"));
       AccStep AccSawDone]
  | SendingErr _ => [AccStep AccSawDone]
  | SendingConn _ =>
      [AccStep AccSawDone;
       AccStep (Accepted (inl "use of closed network connection"));
       AccStep AccSawDone]
  | AccNotStarted | AccExited => []
  end.

(** The steps of the main goroutine from [pc] to the wait on the
    WaitGroup: Listen fails if it has not been called yet; the Controller
    shuts down if the main loop is running. *)
Definition wind_down (pc : MainPc) : list Action :=
  match pc with
  | AtListen =>
      [MainStep (ListenReturns (Some "address already in use"));
       MainStep Proceeds]
  | InMainLoop =>
      [ControllerShutsDown; MainStep (Selects RecvRootDone);
       MainStep Proceeds; MainStep (ClosesSockets (λ _, None));
       MainStep (ListenerCloses None); MainStep Proceeds]
  | AtCloseDone =>
      [MainStep Proceeds; MainStep (ClosesSockets (λ _, None));
       MainStep (ListenerCloses None); MainStep Proceeds]
  | AtHangUpAll =>
      [MainStep (ClosesSockets (λ _, None));
       MainStep (ListenerCloses None); MainStep Proceeds]
  | AtCloseListener => [MainStep (ListenerCloses None); MainStep Proceeds]
  | AtShutdownController => [MainStep Proceeds]
  | AtWait | Returned => []
  end.

(** Steps that take the server from [w] to the return of [Run]. *)
Definition shutdown_schedule (w : World) : list Action :=
  match main w with
  | Returned => []
  | pc =>
      wind_down pc ++ finish_acceptor (acceptor w)
      ++ finish_procs 0 (procs w) ++ [MainStep Proceeds]
  end.

(** The goroutines of a client when all three have finished. *)
Definition exited (p : ConnProc) : ConnProc :=
  mkConnProc (cli p) TxExited RxExited BfExited (sent p) (written p).

(** Two worlds with the same main goroutine, acceptor and [done]. *)
Definition same_control (w w' : World) : Prop :=
  main w' = main w ∧ acceptor w' = acceptor w ∧
  done (srv w') = done (srv w).

End schedule.

(** * Proofs *)

Import requests netsrv examples.

#[local] Set Warnings "-clear-no-such-hyp".

(** ** Clients and their sockets *)

Section registered_facts.
Implicit Types (ps : list ConnProc) (p : ConnProc) (k : nat)
  (X : gset client) (cl : list Conn).

Lemma registered_insert ps k p p' X cl :
  ps !! k = Some p → cli p' = cli p →
  registered ps X cl → registered (<[k:=p']> ps) X cl.
Proof.
  intros Hk Hc Hr q [j Hj]%list_elem_of_lookup.
  destruct (decide (k = j)) as [->|Hne].
  - rewrite list_lookup_insert_eq in Hj by eauto using lookup_lt_Some.
    simplify_eq. rewrite Hc. apply Hr. by eapply list_elem_of_lookup_2.
  - rewrite list_lookup_insert_ne in Hj by done.
    apply Hr. by eapply list_elem_of_lookup_2.
Qed.

Lemma registered_hangUp ps c X cl :
  registered ps X cl → registered ps (X ∖ {[c]}) (conn c :: cl).
Proof.
  intros Hr q Hq. destruct (Hr q Hq) as [Hin|Hin].
  - destruct (decide (cli q = c)) as [->|Hne].
    + right. apply elem_of_cons. by left.
    + left. apply elem_of_difference. split; [done|].
      by rewrite elem_of_singleton.
  - right. apply elem_of_cons. by right.
Qed.

Lemma registered_close ps c X cl :
  registered ps X cl → registered ps X (c :: cl).
Proof.
  intros Hr q Hq. destruct (Hr q Hq); [by left|].
  right. apply elem_of_cons. by right.
Qed.

Lemma registered_new ps p X cl :
  registered ps X cl → registered (ps ++ [p]) ({[cli p]} ∪ X) cl.
Proof.
  intros Hr q [Hq|Hq]%elem_of_app.
  - destruct (Hr q Hq); [left|by right]. apply elem_of_union. by right.
  - apply list_elem_of_singleton in Hq as ->. left.
    apply elem_of_union. left. by apply elem_of_singleton.
Qed.

Lemma registered_all_closed ps X cl cl' :
  (∀ x, x ∈ cl' ↔ x ∈ cl ∨ ∃ c, c ∈ X ∧ conn c = x) →
  registered ps X cl → registered ps ∅ cl'.
Proof.
  intros Hcl Hr q Hq. right. apply Hcl.
  destruct (Hr q Hq); [right|by left]. by exists (cli q).
Qed.

Lemma live_procs_insert ps k p p' :
  ps !! k = Some p →
  live_procs (<[k:=p']> ps) + live_of p = live_procs ps + live_of p'.
Proof.
  unfold live_procs.
  revert k. induction ps as [|q ps IH]; intros [|k] Hk; simplify_eq/=; [lia|].
  specialize (IH _ Hk). lia.
Qed.

Lemma live_procs_snoc ps p :
  live_procs (ps ++ [p]) = live_procs ps + live_of p.
Proof. unfold live_procs. rewrite sum_list_with_app. simpl. lia. Qed.

End registered_facts.

(** ** hangUpClient and hangUpAllClients *)

Section hang_up.
Implicit Types (w : World) (c : client) (cerr : Conn → option error).

Lemma same_but_clients_refl w : same_but_clients w w.
Proof. by unfold same_but_clients. Qed.

Lemma same_but_clients_trans w1 w2 w3 :
  same_but_clients w1 w2 → same_but_clients w2 w3 → same_but_clients w1 w3.
Proof.
  unfold same_but_clients. intros H1 H2. destruct_and!.
  split_and!; congruence.
Qed.

Lemma hangUpClient_same c e w : same_but_clients w (hangUpClient c e w).
Proof. unfold same_but_clients, hangUpClient. by destruct e. Qed.

Lemma hangUpClient_clients c e w :
  clients (srv (hangUpClient c e w)) = clients (srv w) ∖ {[c]}.
Proof. unfold hangUpClient. by destruct e. Qed.

Lemma hangUpClient_closed c e w :
  closed (hangUpClient c e w) = conn c :: closed w.
Proof. unfold hangUpClient. by destruct e. Qed.

(** After [hangUpAllClients] the map is empty and exactly the sockets of
    the clients that were in it have been closed in addition. *)
Lemma hangUpAllClients_spec cerr w :
  let w' := hangUpAllClients cerr w in
  same_but_clients w w' ∧ clients (srv w') = ∅ ∧
  ∀ x, x ∈ closed w' ↔ x ∈ closed w ∨ ∃ c, c ∈ clients (srv w) ∧ conn c = x.
Proof.
  unfold hangUpAllClients.
  pose (P := λ (r : World) (X : gset client),
    same_but_clients w r ∧ clients (srv r) = clients (srv w) ∖ X ∧
    ∀ x, x ∈ closed r ↔ x ∈ closed w ∨ ∃ c, c ∈ X ∧ conn c = x).
  assert (P (set_fold (λ c w0, hangUpClient c (cerr (conn c)) w0) w
                      (clients (srv w))) (clients (srv w))) as (? & Hc & ?).
  { apply (set_fold_ind_L P); unfold P.
    - split_and!; [apply same_but_clients_refl|set_solver|set_solver].
    - intros c X r Hc (Hs & Hcl & Hx). split_and!.
      + eapply same_but_clients_trans; [done|apply hangUpClient_same].
      + rewrite hangUpClient_clients, Hcl. set_solver.
      + intros x. rewrite hangUpClient_closed, elem_of_cons, Hx.
        set_solver. }
  split_and!; [done| |done]. rewrite Hc. set_solver.
Qed.

End hang_up.

(** ** Case analysis on a step of the server *)

Ltac proj :=
  cbn [srv ln closed ctl_shutdowns ctl_done main acceptor procs marks
       l host clients done accErr_closed accConn_closed wg
       upd_srv set_ln set_closed set_ctl set_main set_acceptor set_procs
       mark set_l set_clients set_wg close_done close_acc_chans Println
       wg_Add wg_Done conn_Close Close shutdownController outputError
       set_proc acceptor_returns with_tx with_rx with_bf hangUpClient
       cli tx rx bf sent written] in *.

Ltac step_cases H :=
  unfold step in H;
  repeat match type of H with
  | context [match ?x with _ => _ end] => is_var x; destruct x
  end;
  unfold Run, acceptClients, tx_goroutine, rx_goroutine, bf_goroutine,
    mainLoop_body, newClient, RunTx_body, RunRx_body in H;
  repeat first
    [ progress proj
    | progress simplify_option_eq
    | match goal with
      | H' : context [match ?x with _ => _ end] |- _ =>
          lazymatch type of H' with
          | _ = Some _ => is_var x; destruct x
          end
      end
    | match goal with
      | H' : context [match ?x with _ => _ end] |- _ =>
          lazymatch type of H' with
          | _ = Some _ => destruct x eqn:?
          end
      end ].

Ltac unfold_at :=
  cbn [marks_at done_at ln_at clients_gone shutdowns_at past_mainLoop
       bound live live_of] in *.

(** Rewrites with what is known of the listener and of the two program
    counters, but never with an equation that mentions them on both
    sides. *)
Ltac norm :=
  proj; unfold bound, live in *; proj; unfold_at;
  repeat match goal with
  | H : ?f (hangUpAllClients ?c ?w) = _ |- _ => rewrite !H in *
  | H : ?f (srv (hangUpAllClients ?c ?w)) = _ |- _ => rewrite !H in *
  end;
  repeat match goal with
  | H : ln ?w = ?c |- _ =>
      lazymatch c with context [w] => fail | _ => rewrite !H in * end
  | H : acceptor ?w = ?c |- _ =>
      lazymatch c with context [w] => fail | _ => rewrite !H in * end
  | H : main ?w = ?c |- _ =>
      lazymatch c with context [w] => fail | _ => rewrite !H in * end
  end; unfold_at.

Ltac split_unknown :=
  repeat match goal with
  | |- context [match ?x with _ => _ end] => destruct x eqn:?
  | H : context [match ?x with _ => _ end] |- _ => destruct x eqn:?
  end.

Ltac finish :=
  first [ reflexivity | congruence | lia
        | intuition (first [congruence | lia]) ].

Ltac use_live_insert :=
  match goal with
  | Hk : procs ?w !! ?k = Some ?p |- context [<[?k:=?p']> (procs ?w)] =>
      let Hi := fresh in
      pose proof (live_procs_insert (procs w) k p p' Hk) as Hi;
      unfold live_of in Hi; proj
  end.

Ltac f_eqs :=
  norm; try match goal with H : marks _ = _ |- _ => rewrite H end;
  split_unknown; finish.

Ltac f_wg :=
  norm; try use_live_insert; rewrite ?live_procs_snoc; unfold live_of; proj;
  repeat match goal with
  | H : tx _ = _ |- _ => rewrite !H in *
  | H : rx _ = _ |- _ => rewrite !H in *
  | H : bf _ = _ |- _ => rewrite !H in *
  end;
  split_unknown; finish.

Ltac f_imp :=
  norm; split_unknown;
  first [ finish
        | match goal with
          | |- context [main ?w] => destruct (main w) eqn:?; norm; finish
          end ].

Ltac f_clients :=
  norm; split_unknown;
  first [ intros; discriminate | intros; first [assumption | auto] ].

Ltac f_procs :=
  norm;
  eauto 6 using registered_insert, registered_hangUp, registered_close,
    registered_new, registered_all_closed.

(** ** The invariant *)

Section invariant_facts.
Implicit Types (w : World) (a : Action).

Lemma init_invariant h : invariant (init h).
Proof.
  constructor; try done.
  - simpl. lia.
  - intros p Hp. by apply elem_of_nil in Hp.
Qed.

Lemma step_invariant a w w' :
  invariant w → step a w = Some w' → invariant w'.
Proof.
  intros [Hm Hl Hd Hwg Hcl Hct Hcd Has Hae Hac Hp Hret] Hs.
  step_cases Hs; try congruence.
  all: try match goal with
       | |- context [match ?r with _ => _ end] => destruct r
       end.
  all: try match goal with
       | |- context [hangUpAllClients ?f ?w] =>
           destruct (hangUpAllClients_spec f w) as (Hsame & Hemp & Hclosed);
           unfold same_but_clients in Hsame; destruct_and!
       end.
  all: constructor;
    [ f_eqs | f_eqs | f_eqs | f_wg | f_clients | f_eqs
    | f_imp | f_imp | f_imp | f_imp | f_procs | f_imp ].
Qed.

Lemma run_invariant acts w w' :
  invariant w → run acts w = Some w' → invariant w'.
Proof.
  revert w. induction acts as [|a acts IH]; intros w Hi Hr; simplify_eq/=.
  - done.
  - destruct (step a w) as [w1|] eqn:Hs; simplify_eq/=.
    eauto using step_invariant.
Qed.

Lemma reachable_invariant w : reachable w → invariant w.
Proof. intros (h & acts & Hr). eauto using run_invariant, init_invariant. Qed.

(** The channels of the acceptor are closed only once [mainLoop] has
    returned, so its select never receives from a closed channel. *)
Lemma closed_channels_after_mainLoop w :
  reachable w →
  accErr_closed (srv w) = true ∨ accConn_closed (srv w) = true →
  acceptor w = AccExited ∧ past_mainLoop (main w) = true.
Proof.
  intros [_ _ _ _ _ _ _ _ Hae [Heq Hc] _ _]%reachable_invariant Hcl.
  assert (acceptor w = AccExited) as Ha.
  { apply Hc. destruct Hcl as [Hcl|Hcl]; [done|]. by rewrite <- Heq. }
  split; [done|]. by apply Hae.
Qed.

Lemma run_app acts1 acts2 w :
  run (acts1 ++ acts2) w = w' ← run acts1 w; run acts2 w'.
Proof.
  revert w. induction acts1 as [|a acts1 IH]; intros w; simpl; [done|].
  destruct (step a w); simpl; [apply IH|done].
Qed.

Lemma reachable_run acts w w' :
  reachable w → run acts w = Some w' → reachable w'.
Proof.
  intros (h & acts0 & Hr) Hr'. exists h, (acts0 ++ acts).
  by rewrite run_app, Hr.
Qed.

End invariant_facts.

(** ** The main loop *)

Section main_loop.
Implicit Types (w : World) (a : Action).


(** The main goroutine leaves [mainLoop] only by the two returns of the
    loop: an error of the acceptor or the shutdown of the Controller. *)
Lemma step_leaves_mainLoop a w w' :
  step a w = Some w' → main w = InMainLoop → main w' ≠ InMainLoop →
  main w' = AtCloseDone ∧
  ((∃ copy err, a = MainRecvAcc copy ∧ acceptor w = SendingErr err) ∨
   (a = MainStep (Selects RecvRootDone) ∧ ctl_done w = true)).
Proof.
  intros Hs Hm Hm'. step_cases Hs; try congruence; norm; try congruence.
  all: split; [done|]; eauto.
Qed.



(** From the return of [mainLoop] the main goroutine goes on, without
    waiting for anyone, until the Controller is shut down. *)
Lemma Run_after_mainLoop w cerr r :
  main w = AtCloseDone →
  ∃ w', run [MainStep Proceeds; MainStep (ClosesSockets cerr);
             MainStep (ListenerCloses r); MainStep Proceeds] w = Some w' ∧
    main w' = AtWait ∧ done (srv w') = true ∧ clients (srv w') = ∅ ∧
    ln w' = LnClosed ∧ ctl_shutdowns w' = S (ctl_shutdowns w) ∧
    ctl_done w' = true.
Proof.
  intros Hm. cbn [run]. unfold step, Run. rewrite Hm.
  cbn [mbind option_bind]. proj.
  match goal with
  | |- context [hangUpAllClients ?f ?w] =>
      destruct (hangUpAllClients_spec f w) as (Hsame & Hemp & _);
      unfold same_but_clients in Hsame; destruct_and!
  end.
  eexists. split; [reflexivity|].
  destruct r; norm; by rewrite ?Hemp.
Qed.


End main_loop.

(** ** The claims about the request vocabulary and the Controller *)

Section vocabulary.
Import controller.

(** C2. Processing SetSelect{Index, Hash} succeeds exactly when there is
    an item at Index whose hash is Hash. On success the selection becomes
    Index, nothing else of the state changes and one selection-changed
    Response is sent to the Rx channel of every attached handle. On
    failure the state is the one before and the only send is one rejection
    on the ReplyTx of the requester. *)
Theorem handleSetSelect_hash_guard (o : RequestOrigin)
    (b : SetSelectRequest) (st : Controller) :
  let '(st', out, ok) := handleSetSelect o b st in
  (ok = true ↔ hash_matches st b) ∧
  (hash_matches st b →
     selection st' = Index b ∧ items st' = items st ∧
     autoMode st' = autoMode st ∧ attached st' = attached st ∧
     out = (λ rx, (rx, SelectionChanged (Index b) (Hash b)))
           <$> attached st) ∧
  (¬ hash_matches st b →
     st' = st ∧ out = [(ReplyTx o, Rejection (Index b) (Hash b))]).
Proof.
  unfold handleSetSelect, hash_matches.
  destruct (item_at st (Index b)) as [it|] eqn:Hit.
  - case_bool_decide as Hh.
    + split_and!; [|done|]; [split; eauto|]. intros []. eauto.
    + assert (¬ ∃ it0, Some it = Some it0 ∧ item_hash it0 = Hash b) as Hn
        by (intros (it' & [= <-] & ?); done).
      split_and!; [|done|done]. split; [done|]. intros ?. by destruct Hn.
  - assert (¬ ∃ it0 : Item, None = Some it0 ∧ item_hash it0 = Hash b) as Hn
      by (by intros (it' & [=] & ?)).
    split_and!; [|done|done]. split; [done|]. intros ?. by destruct Hn.
Qed.

(** The scenario of the spec: B selects item 1 with its hash and both
    handles are told; A then selects item 2 with that stale hash and is
    the only one to get a rejection. *)
Lemma handleSetSelect_hash_guard_witness :
  hash_matches three_items select_fresh ∧
  (handleSetSelect origin_B select_fresh three_items).1.2
  = [(10, SelectionChanged 1 "H1"); (11, SelectionChanged 1 "H1")] ∧
  ¬ hash_matches three_items select_stale ∧
  (handleSetSelect origin_A select_stale three_items).1.2
  = [(10, Rejection 2 "H1")].
Proof.
  pose proof (handleSetSelect_hash_guard origin_B select_fresh three_items)
    as Hfresh.
  pose proof (handleSetSelect_hash_guard origin_A select_stale three_items)
    as Hstale.
  vm_compute handleSetSelect in Hfresh, Hstale.
  destruct Hfresh as ([Hf _] & _), Hstale as ([_ Hs] & _).
  split_and!.
  - by apply Hf.
  - reflexivity.
  - intros H. by specialize (Hs H).
  - reflexivity.
Defined.

End vocabulary.

(** ** The claims about the server *)

Section server_claims.
Implicit Types (w : World) (a : Action) (p : ConnProc) (k : nat).

(** C1, as the code has it. When a line is read and does not parse,
    [RunTx] logs the error and returns: whatever lines follow, none is
    read; nothing is handed to [conBifrost.Send], so the line does not
    reach the Controller, and nothing is written back to the sender. The
    goroutine goes on to the select that asks the main loop for a hang-up;
    the map of clients and the sockets are as before until the main loop
    takes the request, and then the socket of this client is closed and
    the client leaves the map, while the main loop goes on. *)
Theorem RunTx_parse_failure_hangs_up w k p (line : list string)
    (merr : error) :
  procs w !! k = Some p → tx p = InRunTx →
  let w1 := set_proc k (with_tx SendingHangUp p) (outputError merr w) in
  (∀ ins, RunTx (ParseFails line merr :: ins) p w
          = (Break, 1, p, outputError merr w)) ∧
  step (TxStep k (TxRound (ParseFails line merr))) w = Some w1 ∧
  l (srv w1) = l (srv w) ++ ["connection error: " +:+ merr] ∧
  procs w1 !! k = Some (with_tx SendingHangUp p) ∧
  sent (with_tx SendingHangUp p) = sent p ∧
  written (with_tx SendingHangUp p) = written p ∧
  clients (srv w1) = clients (srv w) ∧ closed w1 = closed w ∧
  (∀ i, step (TxStep k (TxRound i)) w1 = None) ∧
  (main w = InMainLoop → ∀ cerr, ∃ w2,
     step (MainRecvHangUp k cerr) w1 = Some w2 ∧
     closed w2 = conn (cli p) :: closed w ∧
     clients (srv w2) = clients (srv w) ∖ {[cli p]} ∧
     main w2 = InMainLoop).
Proof.
  intros Hk Htx w1.
  assert (procs w1 !! k = Some (with_tx SendingHangUp p)) as Hk1.
  { unfold w1. simpl. apply list_lookup_insert_eq.
    eauto using lookup_lt_Some. }
  split_and!; try done.
  - unfold step, tx_goroutine. rewrite Hk. simpl. by rewrite Htx.
  - intros i. unfold step, tx_goroutine. rewrite Hk1. by destruct i.
  - intros Hm cerr. unfold step. rewrite Hk1. simpl.
    unfold Run. simpl. rewrite Hm. simpl.
    unfold tx_goroutine. subst w1. simpl in Hk1.
    destruct cerr; simpl; rewrite Hk1; simpl; eexists; (split; [done|]);
      done.
Qed.

Lemma RunTx_parse_failure_hangs_up_witness :
  procs (after serve1) !! 0 = Some proc1 ∧ tx proc1 = InRunTx ∧
  RunTx [bad_line; good_line] proc1 (after serve1)
  = (Break, 1, proc1, outputError "insufficient words" (after serve1)).
Proof.
  assert (procs (after serve1) !! 0 = Some proc1) as Hk
    by (vm_compute; reflexivity).
  split; [exact Hk|]. split; [reflexivity|].
  destruct (RunTx_parse_failure_hangs_up (after serve1) 0 proc1 ["?"]
              "insufficient words" Hk eq_refl) as (Hrun & _).
  exact (Hrun [good_line]).
Defined.

(** C1, as the claim states it, fails. On a connection whose first line
    does not parse and whose second line is well formed, [RunTx] returns
    after the first line; after the hang-up that its goroutine asks for,
    the socket is closed, the client is out of the map, nothing was sent
    to the adapter, and the second line cannot be read any more. *)
Lemma RunTx_parse_failure_counterexample :
  let acts := serve1 ++ [TxStep 0 (TxRound bad_line);
                         MainRecvHangUp 0 None] in
  let w := after acts in
  RunTx [bad_line; good_line] proc1 (after serve1)
  = (Break, 1, proc1, outputError "insufficient words" (after serve1)) ∧
  run acts (init host0) = Some w ∧
  closed w = [conn1] ∧
  elements (clients (srv w)) = [] ∧
  sent <$> procs w = [[]] ∧
  step (TxStep 0 (TxRound good_line)) w = None.
Proof.
  intros acts w. subst acts w.
  split; [reflexivity|]. split_and!; vm_compute; reflexivity.
Qed.






(** C6. When the main loop receives a connection and Copy fails,
    [newClient] closes the socket and returns the error; the main loop
    logs it and stays in its loop; the map of clients, the goroutines and
    the counter of the WaitGroup are as before. *)
Theorem newClient_Copy_failure w (c : Conn) (err : error) :
  main w = InMainLoop → acceptor w = SendingConn c →
  newClient c (inl err) w
  = (Some err,
     conn_Close c (Println ("new connection: " +:+ RemoteAddr c) w)) ∧
  ∃ w', step (MainRecvAcc (inl err)) w = Some w' ∧
    closed w' = c :: closed w ∧
    l (srv w') = l (srv w) ++
      ["new connection: " +:+ RemoteAddr c;
       "error registering connection " +:+ RemoteAddr c +:+ ": " +:+ err] ∧
    clients (srv w') = clients (srv w) ∧
    procs w' = procs w ∧
    wg (srv w') = wg (srv w) ∧
    main w' = InMainLoop ∧
    acceptor w' = InAccept.
Proof.
  intros Hm Ha. split; [done|].
  unfold step, Run, acceptClients. rewrite Ha, Hm. simpl. rewrite Ha.
  eexists. split; [done|]. simpl. by rewrite <- app_assoc.
Qed.

Lemma newClient_Copy_failure_witness :
  main (after accepted1) = InMainLoop ∧
  acceptor (after accepted1) = SendingConn conn1 ∧
  newClient conn1 (inl "controller shut down") (after accepted1)
  = (Some "controller shut down",
     conn_Close conn1
       (Println "new connection: 192.0.2.1:40000" (after accepted1))).
Proof.
  assert (main (after accepted1) = InMainLoop) as Hm
    by (vm_compute; reflexivity).
  assert (acceptor (after accepted1) = SendingConn conn1) as Ha
    by (vm_compute; reflexivity).
  split_and!; [exact Hm|exact Ha|].
  exact (proj1 (newClient_Copy_failure _ conn1 "controller shut down"
                  Hm Ha)).
Defined.

(** C7. When Accept fails the accept loop goes to the select that sends
    the error; it leaves that select only by the send to the main loop or
    by the case of [done], and in both cases it closes its two channels
    and ends. The main loop, on receiving the error, logs it and returns,
    and [Run] then closes [done], hangs up all clients, closes the
    listener and shuts the Controller down. No other step of the server
    makes the main loop return, except the shutdown notification of the
    Controller. *)
Theorem accept_failure_shuts_server_down w (err : error) :
  reachable w → acceptor w = InAccept →
  let w1 := set_acceptor (SendingErr err) w in
  step (AccStep (Accepted (inl err))) w = Some w1 ∧
  (∀ a w2, step a w1 = Some w2 → acceptor w2 ≠ SendingErr err →
     acceptor w2 = AccExited ∧
     accErr_closed (srv w2) = true ∧ accConn_closed (srv w2) = true ∧
     (((∃ copy, a = MainRecvAcc copy) ∧ main w = InMainLoop) ∨
      (a = AccStep AccSawDone ∧ done (srv w) = true))) ∧
  (main w = InMainLoop → ∀ copy, ∃ w2,
     step (MainRecvAcc copy) w1 = Some w2 ∧
     l (srv w2) = l (srv w) ++ ["error accepting connections: " +:+ err] ∧
     main w2 = AtCloseDone ∧ acceptor w2 = AccExited ∧
     ∀ cerr r, ∃ w3,
       run [MainStep Proceeds; MainStep (ClosesSockets cerr);
            MainStep (ListenerCloses r); MainStep Proceeds] w2 = Some w3 ∧
       main w3 = AtWait ∧ done (srv w3) = true ∧ clients (srv w3) = ∅ ∧
       ln w3 = LnClosed ∧ ctl_shutdowns w3 = S (ctl_shutdowns w)) ∧
  (∀ a u u', step a u = Some u' → main u = InMainLoop →
     main u' ≠ InMainLoop →
     (∃ copy e, a = MainRecvAcc copy ∧ acceptor u = SendingErr e) ∨
     a = MainStep (Selects RecvRootDone)).
Proof.
  intros Hre Ha w1.
  assert (main w ≠ AtListen) as Hstarted.
  { destruct (reachable_invariant _ Hre) as [_ Hl _ _ _ _ _ Has _ _ _ _].
    intros Hm. rewrite Hm in Hl. simpl in Hl. unfold bound in Has.
    rewrite Hl, Ha in Has.
    by destruct Has as [_ Has]; specialize (Has eq_refl). }
  split_and!.
  - unfold step, acceptClients. by rewrite Ha.
  - intros a w2 Hs Hne. subst w1. step_cases Hs; try congruence.
    all: try match goal with
         | H : context [hangUpAllClients ?f ?w] |- _ =>
             destruct (hangUpAllClients_spec f w) as (Hsame & _ & _);
             unfold same_but_clients in Hsame; destruct_and!
         end.
    all: norm; try congruence.
    all: split_and!; try done; eauto.
  - intros Hm copy. subst w1. unfold step, Run, acceptClients. proj.
    rewrite Hm. cbn [mainLoop_body mbind option_bind]. proj.
    eexists. split; [reflexivity|]. proj. split_and!; try done.
    intros cerr r.
    edestruct (Run_after_mainLoop
      (acceptor_returns (mark MainLoopReturned (set_main AtCloseDone
         (Println ("error accepting connections: " +:+ err)
            (set_acceptor (SendingErr err) w))))) cerr r)
      as (w3 & ? & ? & ? & ? & ? & ? & ?); [done|].
    exists w3. by split_and!.
  - intros a u u' Hs Hm Hm'.
    destruct (step_leaves_mainLoop _ _ _ Hs Hm Hm') as [_ [?|[? _]]];
      [by left|by right].
Qed.

Lemma accept_failure_shuts_server_down_witness :
  reachable (after listen) ∧ acceptor (after listen) = InAccept ∧
  step (AccStep (Accepted (inl "too many open files"))) (after listen)
  = Some (set_acceptor (SendingErr "too many open files") (after listen)).
Proof.
  assert (reachable (after listen)) as Hre
    by (exists host0, listen; vm_compute; reflexivity).
  assert (acceptor (after listen) = InAccept) as Ha
    by (vm_compute; reflexivity).
  split_and!; [exact Hre|exact Ha|].
  exact (proj1 (accept_failure_shuts_server_down _ "too many open files"
                  Hre Ha)).
Defined.

(** C8: what the code does when the write to the socket fails. A client
    is registered and the first Response it is to receive is packed, but
    the write returns an error. The error is logged and the goroutine of
    [RunRx] ends. The client is still in the map, its socket has not been
    closed, and the main loop has no hang-up to receive: the goroutine of
    [RunTx] is still reading. A Response that does not pack is logged and
    the loop goes round again. *)
Theorem RunRx_write_failure_sends_no_hangup :
  let acts := serve1 ++ [RxStep 0 (RxRound failed_write)] in
  let w := after acts in
  run acts (init host0) = Some w ∧
  l (srv w) = ["now listening on localhost:1350";
               "new connection: 192.0.2.1:40000";
               "connection error: broken pipe"] ∧
  procs w = [mkConnProc cli1 InRunTx RxExited InBifrostRun [] []] ∧
  elements (clients (srv w)) = [cli1] ∧
  closed w = [] ∧
  wg (srv w) = 3 ∧
  (∀ cerr, step (MainRecvHangUp 0 cerr) w = None) ∧
  (∀ i, step (RxStep 0 i) w = None) ∧
  step (TxStep 0 TxSawDone) w = None ∧
  RunRx [PackFails ["?"] "message has no words";
         Packed ["!"; "OHAI"] "! OHAI" None] proc1 (after serve1)
  = (mkConnProc cli1 InRunTx InRunRx InBifrostRun [] ["! OHAI"],
     outputError "message has no words" (after serve1)).
Proof.
  intros acts w. subst acts w.
  split_and!; try (intros []); vm_compute; reflexivity.
Qed.

(** C9. Whenever [Run] has returned, [rootClient.Shutdown] has been
    called, once, before the wait on the WaitGroup, and the Controller is
    down. If Listen had failed, [done] was never closed and the steps of
    [Run] were: the failed Listen, the shutdown of the Controller, the
    wait. *)
Theorem Run_always_shuts_controller_down w :
  reachable w → main w = Returned →
  ctl_shutdowns w = 1 ∧ ctl_done w = true ∧
  before ControllerShutdown Waited (marks w) ∧
  (bound w = false →
     done (srv w) = false ∧
     marks w = [ListenFailed; ControllerShutdown; Waited]).
Proof.
  intros [Hm Hl Hd Hwg Hcl Hct Hcd Has Hae Hac Hp Hret]%reachable_invariant
    Hr.
  rewrite Hr in *. simpl in *. rewrite Hct in Hcd.
  split_and!; [done|apply Hcd; lia| |].
  - rewrite Hm. destruct (bound w).
    + exists 5, 6. by split_and!; [..|lia].
    + exists 1, 2. by split_and!; [..|lia].
  - intros Hb. rewrite Hb in *. done.
Qed.

Lemma Run_always_shuts_controller_down_witness :
  reachable (after listen_fails) ∧ main (after listen_fails) = Returned ∧
  ctl_shutdowns (after listen_fails) = 1.
Proof.
  assert (reachable (after listen_fails)) as Hre
    by (exists host0, listen_fails; vm_compute; reflexivity).
  assert (main (after listen_fails) = Returned) as Hm
    by (vm_compute; reflexivity).
  split_and!; [exact Hre|exact Hm|].
  exact (proj1 (Run_always_shuts_controller_down _ Hre Hm)).
Defined.

(** C10. A Response received from [rootClient.Rx] by the select of the
    main loop is dropped: the step leaves the whole world as it was (the
    map of clients, the log, the sockets, what was written to them, all
    goroutines) and the loop goes round again. *)
Theorem mainLoop_drains_rootClient_Rx (r : controller.Response) w :
  main w = InMainLoop →
  step (MainStep (Selects (RecvRootRx r))) w = Some w ∧
  mainLoop_body (RecvRootRx r) w = (Continue, w) ∧
  ∀ evs, mainLoop (RecvRootRx r :: evs) w = mainLoop evs w.
Proof. intros Hm. unfold step, Run. by rewrite Hm. Qed.

Lemma mainLoop_drains_rootClient_Rx_witness :
  main (after serve1) = InMainLoop ∧
  step (MainStep (Selects (RecvRootRx
          (controller.SelectionChanged 1 "H1")))) (after serve1)
  = Some (after serve1).
Proof.
  assert (main (after serve1) = InMainLoop) as Hm
    by (vm_compute; reflexivity).
  split; [exact Hm|].
  exact (proj1 (mainLoop_drains_rootClient_Rx
                  (controller.SelectionChanged 1 "H1") _ Hm)).
Defined.

End server_claims.


(** * Further properties of the server *)

Import rounds accounting schedule.

Section loops.
Implicit Types (w : World) (p : ConnProc).

Lemma logged_nil w : logged [] w = w.
Proof.
  destruct w as [[]]. unfold logged, upd_srv, set_l. simpl.
  by rewrite app_nil_r.
Qed.

Lemma logged_Println line lines w :
  logged lines (Println line w) = logged (line :: lines) w.
Proof.
  unfold logged, Println, upd_srv, set_l. simpl. by rewrite <- app_assoc.
Qed.

Lemma with_sent_nil p : with_sent [] p = p.
Proof. destruct p. unfold with_sent. simpl. by rewrite app_nil_r. Qed.

Lemma with_written_nil p : with_written [] p = p.
Proof. destruct p. unfold with_written. simpl. by rewrite app_nil_r. Qed.

#[local] Arguments with_sent : simpl never.
#[local] Arguments with_written : simpl never.
#[local] Arguments logged : simpl never.
#[local] Arguments Println : simpl never.

(** X1. While every line that is read parses and [Send] takes every
    message, [RunTx] hands the messages to the adapter in the order of the
    lines, logs nothing, and does not return: it waits for the next
    line. *)
Theorem RunTx_forwards_in_order (ins : list TxIn) (msgs : list Message) p w :
  mapM tx_forwards ins = Some msgs →
  RunTx ins p w = (Continue, length ins, with_sent msgs p, w).
Proof.
  intros Hm%mapM_Some. revert p.
  induction Hm as [|i m ins msgs Hi Hrest IH]; intros p.
  - simpl. by rewrite with_sent_nil.
  - destruct i as [| |line msg []]; simplify_eq/=.
    rewrite IH. unfold with_sent. simpl. by rewrite <- app_assoc.
Qed.

Lemma RunTx_forwards_in_order_witness :
  mapM tx_forwards [good_line; good_line]
  = Some [["a"; "dump"]; ["a"; "dump"]] ∧
  RunTx [good_line; good_line] proc1 (after serve1)
  = (Continue, 2, with_sent [["a"; "dump"]; ["a"; "dump"]] proc1,
     after serve1).
Proof.
  split; [reflexivity|].
  exact (RunTx_forwards_in_order [good_line; good_line] _ proc1
           (after serve1) eq_refl).
Defined.

(** X2. [RunTx] returns at the first round that fails, whether the read
    fails, the line does not parse or [Send] reports a dead client: the
    messages of the rounds before it have been handed over in order, one
    line is logged for the failure, and the lines that follow are never
    read. *)
Theorem RunTx_stops_at_first_failure (oks rest : list TxIn) (bad : TxIn)
    (msgs : list Message) (line : string) p w :
  mapM tx_forwards oks = Some msgs → tx_breaks bad = Some line →
  RunTx (oks ++ bad :: rest) p w
  = (Break, S (length oks), with_sent msgs p, Println line w).
Proof.
  intros Hm%mapM_Some Hb. revert p.
  induction Hm as [|i m oks msgs Hi Hrest IH]; intros p.
  - simpl. rewrite with_sent_nil.
    by destruct bad as [| |? ? []]; simplify_eq/=.
  - destruct i as [| |l0 msg []]; simplify_eq/=.
    rewrite IH. unfold with_sent. simpl. by rewrite <- app_assoc.
Qed.

Lemma RunTx_stops_at_first_failure_witness :
  mapM tx_forwards [good_line] = Some [["a"; "dump"]] ∧
  tx_breaks bad_line = Some "connection error: insufficient words" ∧
  RunTx ([good_line] ++ bad_line :: [good_line]) proc1 (after serve1)
  = (Break, 2, with_sent [["a"; "dump"]] proc1,
     Println "connection error: insufficient words" (after serve1)).
Proof.
  split; [reflexivity|]. split; [reflexivity|].
  exact (RunTx_stops_at_first_failure [good_line] [good_line] bad_line
           [["a"; "dump"]] "connection error: insufficient words" proc1
           (after serve1) eq_refl eq_refl).
Defined.

(** X3. On a channel that is closed after some Responses, and as long as
    no write to the socket fails, [RunRx] writes the bytes of every
    Response that packs, in order, logs one line for every Response that
    does not pack, and leaves everything else of the world alone. *)
Theorem RunRx_writes_in_order (ins : list RxIn) p w :
  Forall (λ i, write_fails i = false) ins →
  RunRx ins p w
  = (with_written (omap rx_writes ins) p, logged (omap rx_logs ins) w).
Proof.
  revert p w. induction ins as [|i ins IH]; intros p w Hf.
  - simpl. by rewrite with_written_nil, logged_nil.
  - inversion Hf as [|? ? Hi Hrest]; subst.
    destruct i as [m err|m b [e|]]; simplify_eq/=.
    + rewrite IH by done. unfold outputError. by rewrite logged_Println.
    + rewrite IH by done. unfold with_written. simpl. by rewrite <- app_assoc.
Qed.

Lemma RunRx_writes_in_order_witness :
  Forall (λ i, write_fails i = false)
    [PackFails ["?"] "message has no words";
     Packed ["!"; "OHAI"] "! OHAI" None] ∧
  RunRx [PackFails ["?"] "message has no words";
         Packed ["!"; "OHAI"] "! OHAI" None] proc1 (after serve1)
  = (with_written ["! OHAI"] proc1,
     logged ["connection error: message has no words"] (after serve1)).
Proof.
  assert (Forall (λ i, write_fails i = false)
            [PackFails ["?"] "message has no words";
             Packed ["!"; "OHAI"] "! OHAI" None]) as Hf
    by (repeat constructor).
  split; [exact Hf|].
  exact (RunRx_writes_in_order _ proc1 (after serve1) Hf).
Defined.

(** X4. [RunRx] returns at the first write that fails: what was packed
    before it has been written, the error of the write is the last line
    logged, and the Responses that follow are never packed or written. *)
Theorem RunRx_stops_at_write_failure (ins rest : list RxIn) (m : Message)
    (mbytes : string) (err : error) p w :
  Forall (λ i, write_fails i = false) ins →
  RunRx (ins ++ Packed m mbytes (Some err) :: rest) p w
  = (with_written (omap rx_writes ins) p,
     logged (omap rx_logs ins ++ ["connection error: " +:+ err]) w).
Proof.
  revert p w. induction ins as [|i ins IH]; intros p w Hf.
  - simpl. by rewrite with_written_nil.
  - inversion Hf as [|? ? Hi Hrest]; subst.
    destruct i as [m0 err0|m0 b [e|]]; simplify_eq/=.
    + rewrite IH by done. unfold outputError. by rewrite logged_Println.
    + rewrite IH by done. unfold with_written. simpl. by rewrite <- app_assoc.
Qed.

Lemma RunRx_stops_at_write_failure_witness :
  Forall (λ i, write_fails i = false) [Packed ["a"] "a" None] ∧
  RunRx ([Packed ["a"] "a" None]
         ++ Packed ["!"; "OHAI"] "! OHAI" (Some "broken pipe")
         :: [Packed ["b"] "b" None]) proc1 (after serve1)
  = (with_written ["a"] proc1,
     logged ["connection error: broken pipe"] (after serve1)).
Proof.
  assert (Forall (λ i, write_fails i = false) [Packed ["a"] "a" None])
    as Hf by (repeat constructor).
  split; [exact Hf|].
  exact (RunRx_stops_at_write_failure _ [Packed ["b"] "b" None]
           ["!"; "OHAI"] "! OHAI" "broken pipe" proc1 (after serve1) Hf).
Defined.

(** X5. [mainLoop] goes on through new connections (registered or not),
    hang-ups and Responses of the root client, and returns at the first
    error of the acceptor or shutdown of the Controller; the events after
    that one are not handled. *)
Theorem mainLoop_stops_at_first_return (evs rest : list MainEvent)
    (ev : MainEvent) w :
  Forall (λ e, returns_on e = false) evs → returns_on ev = true →
  (mainLoop evs w).1 = Continue ∧
  mainLoop (evs ++ ev :: rest) w
  = (Break, (mainLoop_body ev (mainLoop evs w).2).2).
Proof.
  revert w. induction evs as [|e evs IH]; intros w Hf Hr.
  - simpl. split; [done|]. by destruct ev.
  - inversion Hf as [|? ? He Hrest]; subst. simpl.
    destruct e as [|c [err|h]|c cerr|r|]; simplify_eq/=; by apply IH.
Qed.

Lemma mainLoop_stops_at_first_return_witness :
  Forall (λ e, returns_on e = false)
    [RecvRootRx (controller.SelectionChanged 1 "H1");
     RecvAccConn conn1 (inl "controller shut down")] ∧
  returns_on RecvRootDone = true ∧
  (mainLoop ([RecvRootRx (controller.SelectionChanged 1 "H1");
              RecvAccConn conn1 (inl "controller shut down")]
             ++ RecvRootDone :: [RecvAccConn conn2 (inr 2)])
            (after listen)).1 = Break.
Proof.
  assert (Forall (λ e, returns_on e = false)
            [RecvRootRx (controller.SelectionChanged 1 "H1");
             RecvAccConn conn1 (inl "controller shut down")]) as Hf
    by (repeat constructor).
  split; [exact Hf|]. split; [reflexivity|].
  destruct (mainLoop_stops_at_first_return _ [RecvAccConn conn2 (inr 2)]
              RecvRootDone (after listen) Hf eq_refl) as [_ Hr].
  exact (f_equal fst Hr).
Defined.

End loops.

Section hang_up_more.
Implicit Types (w : World) (c : client).

Lemma hangUpClient_log_length c e w :
  length (l (srv w)) < length (l (srv (hangUpClient c e w))).
Proof.
  unfold hangUpClient. destruct e; simpl; rewrite ?length_app; simpl; lia.
Qed.

(** X6. [hangUpAllClients] empties the map of clients and calls Close
    once for every client that was in it: the sockets closed in addition
    are exactly those of these clients and their number is the size of
    the map. At least one line is logged per client. The goroutines, the
    WaitGroup, [done] and the listener are not touched. *)
Theorem hangUpAllClients_closes_every_client (cerr : Conn → option error) w :
  let w' := hangUpAllClients cerr w in
  clients (srv w') = ∅ ∧
  length (closed w') = size (clients (srv w)) + length (closed w) ∧
  (∀ x, x ∈ closed w' ↔
        x ∈ closed w ∨ ∃ c, c ∈ clients (srv w) ∧ conn c = x) ∧
  length (l (srv w)) + size (clients (srv w)) ≤ length (l (srv w')) ∧
  procs w' = procs w ∧ wg (srv w') = wg (srv w) ∧
  done (srv w') = done (srv w) ∧ ln w' = ln w.
Proof.
  intros w'. destruct (hangUpAllClients_spec cerr w) as (Hsame & Hemp & Hcl).
  unfold same_but_clients in Hsame. destruct_and!.
  split_and!; try done.
  - subst w'. unfold hangUpAllClients.
    apply (set_fold_ind_L (λ (r : World) (X : gset client),
             length (closed r) = size X + length (closed w))).
    + by rewrite size_empty.
    + intros c X r Hc Hr. rewrite hangUpClient_closed. simpl. rewrite Hr.
      rewrite size_union by set_solver. rewrite size_singleton. lia.
  - subst w'. unfold hangUpAllClients.
    apply (set_fold_ind_L (λ (r : World) (X : gset client),
             length (l (srv w)) + size X ≤ length (l (srv r)))).
    + rewrite size_empty. lia.
    + intros c X r Hc Hr.
      pose proof (hangUpClient_log_length c (cerr (conn c)) r).
      rewrite size_union by set_solver. rewrite size_singleton. lia.
Qed.

Lemma insert_snoc {A} (ps : list A) (p q : A) :
  <[length ps := q]> (ps ++ [p]) = ps ++ [q].
Proof.
  rewrite insert_app_r_alt by lia. by rewrite Nat.sub_diag.
Qed.

Lemma lookup_snoc {A} (ps : list A) (p : A) :
  (ps ++ [p]) !! length ps = Some p.
Proof. by apply list_lookup_middle. Qed.

(** X7. The main loop takes from the acceptor a connection whose client
    is not in the map yet and registers it; the first round of [RunTx] on
    that connection fails, so [RunTx] returns and its goroutine asks for a
    hang-up; the main loop takes the request. After these three steps the
    map is what it was before, the socket has been closed once, and the
    goroutine around [RunTx] has called [wg.Done] and finished. The other
    two goroutines of the client are where they were and still counted by
    the WaitGroup, which stands two higher than at the start: a hang-up
    neither stops them nor waits for them. The main loop and the acceptor
    go on. *)
Theorem register_then_hang_up (c : Conn) (h : nat) (r : TxIn)
    (cerr : option error) w :
  main w = InMainLoop → acceptor w = SendingConn c →
  mkClient c h h ∉ clients (srv w) →
  is_Some (tx_breaks r) →
  ∃ w', run [MainRecvAcc (inr h); TxStep (length (procs w)) (TxRound r);
             MainRecvHangUp (length (procs w)) cerr] w = Some w' ∧
    clients (srv w') = clients (srv w) ∧
    closed w' = c :: closed w ∧
    wg (srv w') = wg (srv w) + 2 ∧
    procs w' = procs w ++ [mkConnProc (mkClient c h h) TxExited InRunRx
                             InBifrostRun [] []] ∧
    main w' = InMainLoop ∧ acceptor w' = InAccept.
Proof.
  intros Hm Ha Hfresh Hr.
  set (p0 := mkConnProc (mkClient c h h) InRunTx InRunRx InBifrostRun [] []).
  assert (∃ line, ∀ p w0, RunTx_body r p w0 = (Break, p, Println line w0))
    as [line Hbody].
  { destruct r as [e|ln e|ln m [|]]; simpl; eauto. by destruct Hr. }
  set (w1 := set_acceptor InAccept (newClient c (inr h) w).2).
  assert (step (MainRecvAcc (inr h)) w = Some w1) as H1.
  { unfold step. rewrite Ha. unfold Run. rewrite Hm.
    unfold mainLoop_body, newClient, acceptClients.
    cbn [mbind option_bind]. proj. rewrite Ha. reflexivity. }
  assert (procs w1 = procs w ++ [p0]) as Hp1 by reflexivity.
  set (w2 := set_proc (length (procs w)) (with_tx SendingHangUp p0)
               (Println line w1)).
  assert (step (TxStep (length (procs w)) (TxRound r)) w1 = Some w2) as H2.
  { unfold step, tx_goroutine. rewrite Hp1.
    rewrite lookup_snoc. simpl. rewrite Hbody. reflexivity. }
  assert (procs w2 = procs w ++ [with_tx SendingHangUp p0]) as Hp2.
  { unfold w2. simpl. apply insert_snoc. }
  set (w3 := hangUpClient (mkClient c h h) cerr w2).
  assert (procs w3 = procs w2) as Hp3 by (by destruct cerr).
  set (w4 := wg_Done (set_proc (length (procs w))
                        (with_tx TxExited (with_tx SendingHangUp p0)) w3)).
  assert (step (MainRecvHangUp (length (procs w)) cerr) w2 = Some w4) as H3.
  { unfold step. rewrite Hp2. rewrite lookup_snoc.
    cbn [mbind option_bind]. unfold Run.
    replace (main w2) with InMainLoop by (symmetry; exact Hm).
    cbn [mbind option_bind mainLoop_body].
    unfold tx_goroutine.
    change (cli (with_tx SendingHangUp p0)) with (mkClient c h h).
    fold w3. rewrite Hp3, Hp2.
    rewrite lookup_snoc. reflexivity. }
  exists w4. split.
  { cbn [run]. rewrite H1. cbn [mbind option_bind]. rewrite H2.
    cbn [mbind option_bind]. rewrite H3. reflexivity. }
  assert (({[mkClient c h h]} ∪ clients (srv w)) ∖ {[mkClient c h h]}
          = clients (srv w)) as Hcl by set_solver.
  split_and!.
  - destruct cerr; exact Hcl.
  - by destruct cerr.
  - destruct cerr; simpl; lia.
  - unfold w4. cbn [set_proc wg_Done upd_srv procs set_procs].
    rewrite Hp3, Hp2. apply insert_snoc.
  - by destruct cerr.
  - by destruct cerr.
Qed.

Lemma register_then_hang_up_witness :
  main (after accepted1) = InMainLoop ∧
  acceptor (after accepted1) = SendingConn conn1 ∧
  (mkClient conn1 1 1 ∉ clients (srv (after accepted1))) ∧
  is_Some (tx_breaks bad_line) ∧
  (∃ w', run [MainRecvAcc (inr 1);
              TxStep (length (procs (after accepted1))) (TxRound bad_line);
              MainRecvHangUp (length (procs (after accepted1))) None]
             (after accepted1) = Some w' ∧
     clients (srv w') = clients (srv (after accepted1)) ∧
     wg (srv w') = wg (srv (after accepted1)) + 2).
Proof.
  assert (main (after accepted1) = InMainLoop) as Hm
    by (vm_compute; reflexivity).
  assert (acceptor (after accepted1) = SendingConn conn1) as Ha
    by (vm_compute; reflexivity).
  assert (clients (srv (after accepted1)) = ∅) as He
    by (vm_compute; reflexivity).
  assert (mkClient conn1 1 1 ∉ clients (srv (after accepted1))) as Hfresh
    by (rewrite He; apply not_elem_of_empty).
  assert (is_Some (tx_breaks bad_line)) as Hr by (eexists; reflexivity).
  split_and!; [exact Hm|exact Ha|exact Hfresh|exact Hr|].
  destruct (register_then_hang_up conn1 1 bad_line None (after accepted1)
              Hm Ha Hfresh Hr) as (w' & Hrun & Hc & _ & Hwg & _).
  exists w'. split_and!; [exact Hrun|exact Hc|exact Hwg].
Defined.

End hang_up_more.

Ltac hang_up_all_facts :=
  try match goal with
  | |- context [hangUpAllClients ?f ?w] =>
      destruct (hangUpAllClients_spec f w) as (Hsame & Hemp & Hclosed);
      unfold same_but_clients in Hsame; destruct_and!
  | H : context [hangUpAllClients ?f ?w] |- _ =>
      destruct (hangUpAllClients_spec f w) as (Hsame & Hemp & Hclosed);
      unfold same_but_clients in Hsame; destruct_and!
  end.

Section ownership.
Implicit Types (w : World) (a : Action) (p : ConnProc) (k : nat).

(** X8. The map of clients changes only in a step in which the main
    goroutine runs [newClient] on a successful Copy, [hangUpClient] or
    [hangUpAllClients]; no step of the acceptor or of a goroutine of a
    client changes it. *)
Theorem clients_changed_only_by_main a w w' :
  step a w = Some w' → clients (srv w') ≠ clients (srv w) →
  main w = InMainLoop ∧
    ((∃ h, a = MainRecvAcc (inr h)) ∨ (∃ k cerr, a = MainRecvHangUp k cerr))
  ∨ main w = AtHangUpAll ∧ ∃ cerr, a = MainStep (ClosesSockets cerr).
Proof.
  intros Hs Hne. step_cases Hs; try congruence; norm; try congruence.
  all: eauto 8.
Qed.

Lemma clients_changed_only_by_main_witness :
  step (MainRecvAcc (inr 1)) (after accepted1) = Some (after serve1) ∧
  clients (srv (after serve1)) ≠ clients (srv (after accepted1)) ∧
  main (after accepted1) = InMainLoop.
Proof.
  assert (step (MainRecvAcc (inr 1)) (after accepted1)
          = Some (after serve1)) as Hs by (vm_compute; reflexivity).
  assert (clients (srv (after serve1)) ≠ clients (srv (after accepted1)))
    as Hne.
  { intros H. apply (f_equal elements) in H. vm_compute in H.
    discriminate H. }
  split; [exact Hs|]. split; [exact Hne|].
  destruct (clients_changed_only_by_main _ _ _ Hs Hne) as [[Hm _]|[Hm _]].
  - exact Hm.
  - vm_compute. reflexivity.
Defined.

Lemma step_unbound a w w' :
  invariant w → (bound w = false → procs w = []) →
  step a w = Some w' → bound w' = false → procs w' = [].
Proof.
  intros [_ Hl _ _ _ _ _ _ _ _ _ _] Hu Hs.
  step_cases Hs; try congruence.
  all: try match goal with
       | |- context [match ?r with _ => _ end] => destruct r
       end.
  all: hang_up_all_facts.
  all: norm; try congruence; try done.
  all: intros Hb; rewrite Hu by done; done.
Qed.

Lemma run_unbound acts w w' :
  invariant w → (bound w = false → procs w = []) →
  run acts w = Some w' → bound w' = false → procs w' = [].
Proof.
  revert w. induction acts as [|a acts IH]; intros w Hi Hu Hr; simplify_eq/=.
  - done.
  - destruct (step a w) as [w1|] eqn:Hs; simplify_eq/=.
    eapply IH; [by eapply step_invariant| |done].
    by eapply step_unbound.
Qed.

(** Without a listener there is no accept loop and no goroutine of a
    client. *)
Lemma goroutines_need_listener w :
  reachable w → bound w = false → procs w = [] ∧ acceptor w = AccNotStarted.
Proof.
  intros Hre Hb. split.
  - destruct Hre as (h & acts & Hr).
    eapply run_unbound; [apply init_invariant| |done..]. done.
  - by apply (inv_acc_started _ (reachable_invariant _ Hre)).
Qed.

End ownership.

Section leaks.
Implicit Types (w : World) (a : Action) (p : ConnProc) (k : nat).

Lemma served_insert (ps : list ConnProc) k p p' X :
  ps !! k = Some p → cli p' = cli p → served ps X → served (<[k:=p']> ps) X.
Proof.
  intros Hk Hc Hs c Hin.
  destruct (Hs c Hin) as (q & [j Hj]%list_elem_of_lookup & Hq).
  destruct (decide (k = j)) as [->|Hne].
  - exists p'. split; [|by simplify_eq].
    apply list_elem_of_lookup. exists j.
    apply list_lookup_insert_eq. eauto using lookup_lt_Some.
  - exists q. split; [|done]. apply list_elem_of_lookup. exists j.
    by rewrite list_lookup_insert_ne.
Qed.

Lemma served_subseteq (ps : list ConnProc) X Y :
  Y ⊆ X → served ps X → served ps Y.
Proof. intros HY Hs c Hc. apply Hs. set_solver. Qed.

Lemma served_new (ps : list ConnProc) p X :
  served ps X → served (ps ++ [p]) ({[cli p]} ∪ X).
Proof.
  intros Hs c [Hc%elem_of_singleton|Hc]%elem_of_union.
  - exists p. split; [|done]. apply elem_of_app. right.
    by apply list_elem_of_singleton.
  - destruct (Hs c Hc) as (q & ? & ?). exists q. split; [|done].
    apply elem_of_app. by left.
Qed.

Lemma step_served a w w' :
  served (procs w) (clients (srv w)) → step a w = Some w' →
  served (procs w') (clients (srv w')).
Proof.
  intros Hsv Hs. step_cases Hs; try congruence.
  all: try match goal with
       | |- context [match ?r with _ => _ end] => destruct r
       end.
  all: hang_up_all_facts.
  all: norm; try done.
  all: try (rewrite Hemp; by intros ? ?%elem_of_empty).
  all: try (eapply served_insert; [done..|]).
  all: try done.
  all: try (eapply served_subseteq; [|done]; set_solver).
  all: by apply (served_new _ (mkConnProc _ _ _ _ _ _)).
Qed.

End leaks.

Section more.
Implicit Types (w : World) (a : Action) (p : ConnProc) (k : nat).

Lemma run_served acts w w' :
  served (procs w) (clients (srv w)) → run acts w = Some w' →
  served (procs w') (clients (srv w')).
Proof.
  revert w. induction acts as [|a acts IH]; intros w Hi Hr; simplify_eq/=.
  - done.
  - destruct (step a w) as [w1|] eqn:Hs; simplify_eq/=.
    eauto using step_served.
Qed.

(** X10. In every world the server can be in, every client of the map
    has its three goroutines, and every client that was given goroutines
    is still in the map or has had its socket closed: no client is in the
    map unserved, and none has left it with its socket open. *)
Theorem clients_and_sockets_accounted w :
  reachable w →
  (∀ c, c ∈ clients (srv w) → ∃ p, p ∈ procs w ∧ cli p = c) ∧
  (∀ p, p ∈ procs w → cli p ∈ clients (srv w) ∨ conn (cli p) ∈ closed w).
Proof.
  intros Hre. split.
  - destruct Hre as (h & acts & Hr).
    eapply (run_served acts (init h)); [|done].
    by intros c ?%elem_of_empty.
  - apply (inv_procs _ (reachable_invariant _ Hre)).
Qed.

Lemma clients_and_sockets_accounted_witness :
  reachable (after serve1) ∧
  ∀ c, c ∈ clients (srv (after serve1)) →
       ∃ p, p ∈ procs (after serve1) ∧ cli p = c.
Proof.
  assert (reachable (after serve1)) as Hre
    by (exists host0, serve1; vm_compute; reflexivity).
  split; [exact Hre|].
  exact (proj1 (clients_and_sockets_accounted _ Hre)).
Defined.

(** X9. In every world the server can be in, the counter of the
    WaitGroup is the number of goroutines started by the server that have
    not finished (the accept loop and three per client); and when [Run]
    has returned that number is zero. *)
Theorem wg_counts_live_goroutines w :
  reachable w →
  wg (srv w) = live w ∧ (main w = Returned → live w = 0).
Proof.
  intros [_ _ _ Hwg _ _ _ _ _ _ _ Hret]%reachable_invariant.
  split; [done|]. intros Hm. rewrite <- Hwg. by apply Hret.
Qed.

Lemma wg_counts_live_goroutines_witness :
  reachable (after serve1) ∧ wg (srv (after serve1)) = live (after serve1).
Proof.
  assert (reachable (after serve1)) as Hre
    by (exists host0, serve1; vm_compute; reflexivity).
  split; [exact Hre|].
  exact (proj1 (wg_counts_live_goroutines _ Hre)).
Defined.

(** X12. A connection the accept loop has accepted is never dropped: the
    accept loop leaves its select only when the main loop has taken the
    connection, and then the client is registered with its goroutines or,
    if Copy failed, the socket is closed; or by the case of [done], and
    then the accept loop closes the socket itself. Either way the loop is
    back in Accept. *)
Theorem accepted_connection_registered_or_closed a w w' (c : Conn) :
  reachable w → acceptor w = SendingConn c → step a w = Some w' →
  acceptor w' ≠ SendingConn c →
  acceptor w' = InAccept ∧
  ((∃ h, a = MainRecvAcc (inr h) ∧
         mkClient c h h ∈ clients (srv w') ∧
         procs w' = procs w ++ [mkConnProc (mkClient c h h) InRunTx InRunRx
                                  InBifrostRun [] []] ∧
         closed w' = closed w) ∨
   ((∃ err, a = MainRecvAcc (inl err)) ∨ a = AccStep AccSawDone) ∧
     closed w' = c :: closed w ∧ clients (srv w') = clients (srv w) ∧
     procs w' = procs w).
Proof.
  intros Hre Ha Hs Hne.
  assert (main w ≠ AtListen) as Hstarted.
  { destruct (reachable_invariant _ Hre) as [_ Hl _ _ _ _ _ Has _ _ _ _].
    intros Hm. rewrite Hm in Hl. simpl in Hl. unfold bound in Has.
    rewrite Hl, Ha in Has.
    by destruct Has as [_ Has]; specialize (Has eq_refl). }
  step_cases Hs; try congruence.
  all: hang_up_all_facts.
  all: norm; try congruence.
  all: split; [done|].
  - right. split_and!; eauto.
  - left. eexists. split_and!; try done. set_solver.
  - right. split_and!; eauto.
Qed.

Lemma accepted_connection_registered_or_closed_witness :
  reachable (after late_accept) ∧
  acceptor (after late_accept) = SendingConn conn2 ∧
  step (AccStep AccSawDone) (after late_accept)
  = Some (set_acceptor InAccept (conn_Close conn2 (after late_accept))) ∧
  acceptor (set_acceptor InAccept (conn_Close conn2 (after late_accept)))
  = InAccept.
Proof.
  assert (reachable (after late_accept)) as Hre
    by (exists host0, late_accept; vm_compute; reflexivity).
  assert (acceptor (after late_accept) = SendingConn conn2) as Ha
    by (vm_compute; reflexivity).
  assert (step (AccStep AccSawDone) (after late_accept)
          = Some (set_acceptor InAccept
                    (conn_Close conn2 (after late_accept)))) as Hs
    by (vm_compute; reflexivity).
  split_and!; [exact Hre|exact Ha|exact Hs|].
  refine (proj1 (accepted_connection_registered_or_closed _ _ _ conn2
                   Hre Ha Hs _)).
  simpl. discriminate.
Defined.

(** X13. The select of the accept loop cannot block for ever: whenever
    the accept loop waits to send an error or a connection, the main loop
    is running and can receive it, or [done] is closed and the select can
    take that case, or the main goroutine has just left its loop and its
    very next step closes [done]. *)
Theorem acceptor_select_can_proceed w :
  reachable w →
  (∃ err, acceptor w = SendingErr err) ∨ (∃ c, acceptor w = SendingConn c) →
  (main w = InMainLoop ∧ ∀ copy, is_Some (step (MainRecvAcc copy) w)) ∨
  (main w = AtCloseDone ∧ ∃ w1, step (MainStep Proceeds) w = Some w1 ∧
     is_Some (step (AccStep AccSawDone) w1)) ∨
  (done (srv w) = true ∧ is_Some (step (AccStep AccSawDone) w)).
Proof.
  intros [_ Hl Hd _ _ _ _ Has _ _ _ _]%reachable_invariant Ha.
  assert (bound w = true) as Hb.
  { destruct (bound w); [done|]. destruct Has as [_ Has].
    specialize (Has eq_refl). destruct Ha as [[? Ha]|[? Ha]]; congruence. }
  rewrite Hb in *.
  destruct (main w) eqn:Hm; simpl in *.
  - unfold bound in Hb. by rewrite Hl in Hb.
  - left. split; [done|]. intros copy. unfold step, Run, acceptClients.
    destruct Ha as [[e Ha]|[c Ha]]; rewrite Ha, Hm; simpl.
    + rewrite Ha. eauto.
    + destruct copy; simpl; rewrite Ha; eauto.
  - right; left. split; [done|].
    eexists. split; [unfold step, Run; by rewrite Hm|].
    unfold step, acceptClients. simpl.
    destruct Ha as [[e Ha]|[c Ha]]; rewrite Ha; eauto.
  - right; right. split; [done|]. unfold step, acceptClients. rewrite Hd.
    destruct Ha as [[e Ha]|[c Ha]]; rewrite Ha; eauto.
  - right; right. split; [done|]. unfold step, acceptClients. rewrite Hd.
    destruct Ha as [[e Ha]|[c Ha]]; rewrite Ha; eauto.
  - right; right. split; [done|]. unfold step, acceptClients. rewrite Hd.
    destruct Ha as [[e Ha]|[c Ha]]; rewrite Ha; eauto.
  - right; right. split; [done|]. unfold step, acceptClients. rewrite Hd.
    destruct Ha as [[e Ha]|[c Ha]]; rewrite Ha; eauto.
  - right; right. split; [done|]. unfold step, acceptClients. rewrite Hd.
    destruct Ha as [[e Ha]|[c Ha]]; rewrite Ha; eauto.
Qed.

Lemma acceptor_select_can_proceed_witness :
  reachable (after accepted1) ∧
  acceptor (after accepted1) = SendingConn conn1 ∧
  ((main (after accepted1) = InMainLoop ∧
    ∀ copy, is_Some (step (MainRecvAcc copy) (after accepted1))) ∨
   (main (after accepted1) = AtCloseDone ∧
    ∃ w1, step (MainStep Proceeds) (after accepted1) = Some w1 ∧
          is_Some (step (AccStep AccSawDone) w1)) ∨
   (done (srv (after accepted1)) = true ∧
    is_Some (step (AccStep AccSawDone) (after accepted1)))).
Proof.
  assert (reachable (after accepted1)) as Hre
    by (exists host0, accepted1; vm_compute; reflexivity).
  assert (acceptor (after accepted1) = SendingConn conn1) as Ha
    by (vm_compute; reflexivity).
  split_and!; [exact Hre|exact Ha|].
  exact (acceptor_select_can_proceed _ Hre
           (or_intror (ex_intro _ conn1 Ha))).
Defined.

(** X14. The select in which the goroutine of [RunTx] asks for its
    hang-up cannot block for ever: the main loop is running and can take
    the hang-up, or [done] is closed, or the main goroutine has just left
    its loop and its very next step closes [done]. *)
Theorem hang_up_select_can_proceed w k p :
  reachable w → procs w !! k = Some p → tx p = SendingHangUp →
  (main w = InMainLoop ∧ ∀ cerr, is_Some (step (MainRecvHangUp k cerr) w)) ∨
  (main w = AtCloseDone ∧ ∃ w1, step (MainStep Proceeds) w = Some w1 ∧
     is_Some (step (TxStep k TxSawDone) w1)) ∨
  (done (srv w) = true ∧ is_Some (step (TxStep k TxSawDone) w)).
Proof.
  intros Hre Hk Htx.
  assert (bound w = true) as Hb.
  { destruct (bound w) eqn:Hb; [done|].
    destruct (goroutines_need_listener _ Hre Hb) as [Hp _].
    by rewrite Hp in Hk. }
  destruct (reachable_invariant _ Hre) as [_ Hl Hd _ _ _ _ _ _ _ _ _].
  rewrite Hb in *.
  destruct (main w) eqn:Hm; simpl in *.
  - unfold bound in Hb. by rewrite Hl in Hb.
  - left. split; [done|]. intros cerr. unfold step, Run. rewrite Hk. simpl.
    rewrite Hm. simpl. unfold tx_goroutine.
    destruct cerr; simpl; rewrite Hk; simpl; rewrite Htx; eauto.
  - right; left. split; [done|].
    eexists. split; [unfold step, Run; by rewrite Hm|].
    unfold step, tx_goroutine. simpl.
    rewrite Hk. simpl. rewrite Htx. eauto.
  - right; right. split; [done|]. unfold step, tx_goroutine.
    rewrite Hk. simpl. rewrite Htx, Hd. eauto.
  - right; right. split; [done|]. unfold step, tx_goroutine.
    rewrite Hk. simpl. rewrite Htx, Hd. eauto.
  - right; right. split; [done|]. unfold step, tx_goroutine.
    rewrite Hk. simpl. rewrite Htx, Hd. eauto.
  - right; right. split; [done|]. unfold step, tx_goroutine.
    rewrite Hk. simpl. rewrite Htx, Hd. eauto.
  - right; right. split; [done|]. unfold step, tx_goroutine.
    rewrite Hk. simpl. rewrite Htx, Hd. eauto.
Qed.

Lemma hang_up_select_can_proceed_witness :
  let w := after (serve1 ++ [TxStep 0 (TxRound bad_line)]) in
  reachable w ∧
  procs w !! 0 = Some (with_tx SendingHangUp proc1) ∧
  tx (with_tx SendingHangUp proc1) = SendingHangUp ∧
  ((main w = InMainLoop ∧
    ∀ cerr, is_Some (step (MainRecvHangUp 0 cerr) w)) ∨
   (main w = AtCloseDone ∧
    ∃ w1, step (MainStep Proceeds) w = Some w1 ∧
          is_Some (step (TxStep 0 TxSawDone) w1)) ∨
   (done (srv w) = true ∧ is_Some (step (TxStep 0 TxSawDone) w))).
Proof.
  intros w.
  assert (reachable w) as Hre
    by (exists host0, (serve1 ++ [TxStep 0 (TxRound bad_line)]);
        vm_compute; reflexivity).
  assert (procs w !! 0 = Some (with_tx SendingHangUp proc1)) as Hk
    by (vm_compute; reflexivity).
  split_and!; [exact Hre|exact Hk|reflexivity|].
  exact (hang_up_select_can_proceed w 0 _ Hre Hk eq_refl).
Defined.

(** X11. While the main loop runs, the two channels of the acceptor are
    open: the acceptor closes them only after its error was received or
    [done] was closed, that is, after [mainLoop] has returned. So the
    select of the main loop never receives a nil error or a nil
    connection from a closed channel. *)
Theorem mainLoop_never_sees_closed_channel w :
  reachable w → main w = InMainLoop →
  accErr_closed (srv w) = false ∧ accConn_closed (srv w) = false ∧
  acceptor w ≠ AccExited.
Proof.
  intros [_ _ _ _ _ _ _ _ Hae [Heq Hc] _ _]%reachable_invariant Hm.
  rewrite Hm in Hae. simpl in Hae.
  assert (acceptor w ≠ AccExited) as Hne by (intros Ha; by specialize (Hae Ha)).
  rewrite Heq. destruct (accErr_closed (srv w)); [|done].
  destruct Hne. by apply Hc.
Qed.

Lemma mainLoop_never_sees_closed_channel_witness :
  reachable (after serve1) ∧ main (after serve1) = InMainLoop ∧
  accErr_closed (srv (after serve1)) = false.
Proof.
  assert (reachable (after serve1)) as Hre
    by (exists host0, serve1; vm_compute; reflexivity).
  assert (main (after serve1) = InMainLoop) as Hm
    by (vm_compute; reflexivity).
  split_and!; [exact Hre|exact Hm|].
  exact (proj1 (mainLoop_never_sees_closed_channel _ Hre Hm)).
Defined.

(** X16. In every world the server can be in: if [done] is closed then
    [mainLoop] has returned; if the listener is closed then [done] is
    closed and the map of clients is empty; and the Controller has been
    shut down by the server at most once, and only when the listener is
    no longer listening. *)
Theorem shutdown_state_consistent w :
  reachable w →
  (done (srv w) = true → past_mainLoop (main w) = true) ∧
  (ln w = LnClosed → done (srv w) = true ∧ clients (srv w) = ∅) ∧
  ctl_shutdowns w ≤ 1 ∧
  (ctl_shutdowns w = 1 → ln w ≠ Listening).
Proof.
  intros [_ Hl Hd _ Hcl Hct _ _ _ _ _ _]%reachable_invariant.
  unfold bound in *. rewrite Hct.
  destruct (main w), (ln w); simpl in *; try discriminate Hl.
  all: split_and!; intros; try congruence; try lia.
  all: split; [congruence|by apply Hcl].
Qed.

Lemma shutdown_state_consistent_witness :
  reachable (after (serve1 ++ shut_down)) ∧
  ln (after (serve1 ++ shut_down)) = LnClosed ∧
  done (srv (after (serve1 ++ shut_down))) = true.
Proof.
  assert (reachable (after (serve1 ++ shut_down))) as Hre
    by (exists host0, (serve1 ++ shut_down); vm_compute; reflexivity).
  assert (ln (after (serve1 ++ shut_down)) = LnClosed) as Hl
    by (vm_compute; reflexivity).
  split_and!; [exact Hre|exact Hl|].
  exact (proj1 (proj1 (proj2 (shutdown_state_consistent _ Hre)) Hl)).
Defined.

End more.

Section termination.
Implicit Types (w : World) (a : Action) (p : ConnProc) (k : nat).

Lemma finish_tx_ok w k p :
  done (srv w) = true → procs w !! k = Some p →
  ∃ w', run (finish_tx k (tx p)) w = Some w' ∧
    procs w' = <[k:=with_tx TxExited p]> (procs w) ∧ same_control w w'.
Proof.
  intros Hd Hk. pose proof (lookup_lt_Some _ _ _ Hk) as Hlt.
  unfold finish_tx, same_control. destruct (tx p) eqn:Htx; cbn [run].
  - unfold step, tx_goroutine. rewrite Hk. simpl. rewrite Htx. simpl.
    rewrite list_lookup_insert_eq by done. simpl. rewrite Hd.
    eexists. split; [done|]. simpl. by rewrite list_insert_insert_eq.
  - unfold step, tx_goroutine. rewrite Hk. simpl. rewrite Htx, Hd. simpl.
    eexists. split; [done|]. done.
  - eexists. split; [done|]. split; [|done].
    rewrite list_insert_id; [done|]. rewrite Hk. f_equal.
    destruct p; simpl in *; by subst.
Qed.

Lemma finish_rx_ok w k p :
  procs w !! k = Some p →
  ∃ w', run (finish_rx k (rx p)) w = Some w' ∧
    procs w' = <[k:=with_rx RxExited p]> (procs w) ∧ same_control w w'.
Proof.
  intros Hk. unfold finish_rx, same_control.
  destruct (rx p) eqn:Hrx; cbn [run].
  - unfold step, rx_goroutine. rewrite Hk. simpl. rewrite Hrx. simpl.
    eexists. split; [done|]. done.
  - eexists. split; [done|]. split; [|done].
    rewrite list_insert_id; [done|]. rewrite Hk. f_equal.
    destruct p; simpl in *; by subst.
Qed.

Lemma finish_bf_ok w k p :
  procs w !! k = Some p →
  ∃ w', run (finish_bf k (bf p)) w = Some w' ∧
    procs w' = <[k:=with_bf BfExited p]> (procs w) ∧ same_control w w'.
Proof.
  intros Hk. unfold finish_bf, same_control.
  destruct (bf p) eqn:Hbf; cbn [run].
  - unfold step, bf_goroutine. rewrite Hk. simpl. rewrite Hbf. simpl.
    eexists. split; [done|]. done.
  - eexists. split; [done|]. split; [|done].
    rewrite list_insert_id; [done|]. rewrite Hk. f_equal.
    destruct p; simpl in *; by subst.
Qed.

Lemma same_control_trans w1 w2 w3 :
  same_control w1 w2 → same_control w2 w3 → same_control w1 w3.
Proof. unfold same_control. intros (?&?&?) (?&?&?). split_and!; congruence. Qed.

Lemma finish_proc_ok w k p :
  done (srv w) = true → procs w !! k = Some p →
  ∃ w', run (finish_proc k p) w = Some w' ∧
    procs w' = <[k:=exited p]> (procs w) ∧ same_control w w'.
Proof.
  intros Hd Hk. pose proof (lookup_lt_Some _ _ _ Hk) as Hlt.
  destruct (finish_tx_ok w k p Hd Hk) as (w1 & Hr1 & Hp1 & Hc1).
  assert (procs w1 !! k = Some (with_tx TxExited p)) as Hk1.
  { rewrite Hp1. by apply list_lookup_insert_eq. }
  destruct (finish_rx_ok w1 k _ Hk1) as (w2 & Hr2 & Hp2 & Hc2).
  assert (procs w2 !! k = Some (with_rx RxExited (with_tx TxExited p)))
    as Hk2.
  { rewrite Hp2. apply list_lookup_insert_eq. by rewrite Hp1, length_insert. }
  destruct (finish_bf_ok w2 k _ Hk2) as (w3 & Hr3 & Hp3 & Hc3).
  exists w3. split_and!.
  - unfold finish_proc. cbn [tx rx bf with_tx with_rx] in Hr2, Hr3.
    rewrite run_app, Hr1. cbn [mbind option_bind].
    rewrite run_app, Hr2. cbn [mbind option_bind]. done.
  - rewrite Hp3, Hp2, Hp1. by rewrite !list_insert_insert_eq.
  - eauto using same_control_trans.
Qed.

Lemma finish_procs_ok (ps pre : list ConnProc) w :
  done (srv w) = true → procs w = pre ++ ps →
  ∃ w', run (finish_procs (length pre) ps) w = Some w' ∧
    procs w' = pre ++ (exited <$> ps) ∧ same_control w w'.
Proof.
  revert pre w. induction ps as [|p ps IH]; intros pre w Hd Hp.
  - exists w. simpl. by rewrite Hp.
  - assert (procs w !! length pre = Some p) as Hk
      by (rewrite Hp; apply list_lookup_middle; done).
    destruct (finish_proc_ok w _ p Hd Hk) as (w1 & Hr1 & Hp1 & Hc1).
    assert (procs w1 = (pre ++ [exited p]) ++ ps) as Hp1'.
    { rewrite Hp1, Hp, <- app_assoc. simpl.
      rewrite insert_app_r_alt by lia. by rewrite Nat.sub_diag. }
    assert (done (srv w1) = true) as Hd1.
    { destruct Hc1 as (_ & _ & ->). done. }
    destruct (IH _ w1 Hd1 Hp1') as (w2 & Hr2 & Hp2 & Hc2).
    rewrite length_app in Hr2. simpl in Hr2.
    replace (length pre + 1) with (S (length pre)) in Hr2 by lia.
    exists w2. split_and!.
    + simpl. rewrite run_app, Hr1. done.
    + rewrite Hp2, <- app_assoc. done.
    + eauto using same_control_trans.
Qed.

Lemma finish_acceptor_ok w :
  done (srv w) = true →
  ∃ w', run (finish_acceptor (acceptor w)) w = Some w' ∧
    (acceptor w' = AccExited ∨ acceptor w' = AccNotStarted) ∧
    procs w' = procs w ∧ main w' = main w ∧ done (srv w') = true.
Proof.
  intros Hd. unfold finish_acceptor.
  destruct (acceptor w) eqn:Ha; cbn [run]; unfold step, acceptClients;
    rewrite ?Ha, ?Hd; simpl; rewrite ?Hd; simpl;
    eexists; (split; [done|]); simpl; eauto.
Qed.

Lemma live_procs_exited (ps : list ConnProc) :
  live_procs (exited <$> ps) = 0.
Proof. unfold live_procs. by induction ps. Qed.

Lemma run_cons a acts w : run (a :: acts) w = step a w ≫= run acts.
Proof. done. Qed.

Lemma wind_down_from pc w :
  main w = pc → pc ≠ Returned →
  ∃ w', run (wind_down pc) w = Some w' ∧ main w' = AtWait ∧
    acceptor w' = acceptor w ∧ procs w' = procs w.
Proof.
  assert (∀ w, main w = AtShutdownController →
    ∃ w', run (wind_down AtShutdownController) w = Some w' ∧
      main w' = AtWait ∧ acceptor w' = acceptor w ∧ procs w' = procs w)
    as Hshut.
  { intros w0 Hm. cbn [wind_down run]. unfold step, Run. rewrite Hm.
    eexists. split; [done|]. done. }
  assert (∀ w, main w = AtCloseListener →
    ∃ w', run (wind_down AtCloseListener) w = Some w' ∧
      main w' = AtWait ∧ acceptor w' = acceptor w ∧ procs w' = procs w)
    as Hln.
  { intros w0 Hm. cbn [wind_down]. rewrite run_cons.
    unfold step at 1, Run. rewrite Hm. cbn [mbind option_bind].
    edestruct Hshut as (w' & -> & ? & ? & ?); [|by eexists]. done. }
  assert (∀ w, main w = AtHangUpAll →
    ∃ w', run (wind_down AtHangUpAll) w = Some w' ∧
      main w' = AtWait ∧ acceptor w' = acceptor w ∧ procs w' = procs w)
    as Hall.
  { intros w0 Hm. cbn [wind_down]. rewrite run_cons.
    unfold step at 1, Run. rewrite Hm. cbn [mbind option_bind].
    destruct (hangUpAllClients_spec (λ _, None) w0) as (Hsame & _ & _).
    unfold same_but_clients in Hsame. destruct_and!.
    edestruct Hln as (w' & -> & ? & ? & ?); [|eexists; split; [done|]].
    - done.
    - proj. split_and!; congruence. }
  assert (∀ w, main w = AtCloseDone →
    ∃ w', run (wind_down AtCloseDone) w = Some w' ∧
      main w' = AtWait ∧ acceptor w' = acceptor w ∧ procs w' = procs w)
    as Hdone.
  { intros w0 Hm. cbn [wind_down]. rewrite run_cons.
    unfold step at 1, Run. rewrite Hm. cbn [mbind option_bind].
    edestruct Hall as (w' & -> & ? & ? & ?); [|by eexists]. done. }
  intros Hm Hne. destruct pc; try done.
  - cbn [wind_down]. rewrite run_cons.
    unfold step at 1, Run. rewrite Hm. cbn [mbind option_bind].
    edestruct Hshut as (w' & -> & ? & ? & ?); [|by eexists]. done.
  - cbn [wind_down]. rewrite run_cons. unfold step at 1.
    cbn [mbind option_bind]. rewrite run_cons. unfold step at 1, Run.
    proj. rewrite Hm. cbn [mainLoop_body mbind option_bind].
    edestruct Hdone as (w' & -> & ? & ? & ?); [|by eexists]. done.
  - by apply Hdone.
  - by apply Hall.
  - by apply Hln.
  - by apply Hshut.
  - by exists w.
Qed.

Lemma shutdown_schedule_eq w :
  main w ≠ Returned →
  shutdown_schedule w
  = wind_down (main w) ++ finish_acceptor (acceptor w)
    ++ finish_procs 0 (procs w) ++ [MainStep Proceeds].
Proof. unfold shutdown_schedule. by destruct (main w). Qed.

(** X15. The server can always shut down: from every world it can be in,
    the steps of [shutdown_schedule] can be taken one after the other and
    end with [Run] returned and no goroutine of the server left running.
    In them the Controller shuts down (or Listen
    fails), the main goroutine goes through its shutdown steps, Accept
    and the reads fail on the closed listener and sockets, the channels
    of the adapters are closed, and every goroutine finds [done] closed
    where it might wait. *)
Theorem Run_can_always_return w :
  reachable w →
  ∃ w', run (shutdown_schedule w) w = Some w' ∧ main w' = Returned ∧
        live w' = 0.
Proof.
  intros Hre.
  assert (main w = Returned ∨ main w ≠ Returned) as [Hm|Hm]
    by (destruct (main w); (by left) || (by right)).
  { unfold shutdown_schedule. rewrite Hm. exists w. split_and!; try done.
    destruct (reachable_invariant _ Hre)
      as [_ _ _ Hwg _ _ _ _ _ _ _ Hret].
    rewrite <- Hwg. by apply Hret. }
  rewrite shutdown_schedule_eq by done.
  destruct (wind_down_from _ w eq_refl Hm) as (w1 & Hr1 & Hm1 & Ha1 & Hp1).
  pose proof (reachable_run _ _ _ Hre Hr1) as Hre1.
  rewrite run_app, Hr1. cbn [mbind option_bind].
  rewrite <- Ha1, <- Hp1.
  assert (∃ w3, run (finish_acceptor (acceptor w1)
                      ++ finish_procs 0 (procs w1)) w1 = Some w3 ∧
            reachable w3 ∧ main w3 = AtWait ∧ live w3 = 0)
    as (w3 & Hr3 & Hre3 & Hm3 & Hl3).
  { destruct (bound w1) eqn:Hb.
    - assert (done (srv w1) = true) as Hd1.
      { rewrite (inv_done _ (reachable_invariant _ Hre1)), Hm1, Hb. done. }
      destruct (finish_acceptor_ok w1 Hd1)
        as (w2 & Hr2 & Ha2 & Hp2 & Hm2 & Hd2).
      destruct (finish_procs_ok (procs w2) [] w2 Hd2 eq_refl)
        as (w3 & Hr3 & Hp3 & Hm3' & Ha3 & _).
      simpl in Hr3. rewrite Hp2 in Hr3.
      exists w3. split_and!.
      + rewrite run_app, Hr2. done.
      + eapply reachable_run; [|exact Hr3].
        eapply reachable_run; [exact Hre1|exact Hr2].
      + congruence.
      + unfold live. rewrite Hp3. simpl. rewrite live_procs_exited.
        rewrite Ha3. by destruct Ha2 as [->| ->].
    - destruct (goroutines_need_listener _ Hre1 Hb) as [Hp Ha].
      rewrite Hp, Ha. exists w1. split_and!; try done.
      unfold live. by rewrite Hp, Ha. }
  rewrite app_assoc, run_app, Hr3. cbn [mbind option_bind run].
  unfold step, Run. rewrite Hm3.
  rewrite (inv_wg _ (reachable_invariant _ Hre3)), Hl3. simpl.
  eexists. split; [done|]. done.
Qed.

Lemma Run_can_always_return_witness :
  reachable (after serve1) ∧
  ∃ w', run (shutdown_schedule (after serve1)) (after serve1) = Some w' ∧
        main w' = Returned ∧ live w' = 0.
Proof.
  assert (reachable (after serve1)) as Hre
    by (exists host0, serve1; vm_compute; reflexivity).
  split; [exact Hre|].
  exact (Run_can_always_return _ Hre).
Defined.

End termination.
